(** * Image annotation tool: filename engine, annotation store, filter engine

    A shallow embedding of [src/app.py] and the properties of its
    specification.  Python [str] values are modelled as [string]
    (code points 0..255), Python [int] as [N] or [Z], [dict] as [gmap],
    [set] as [gset], lists as [list].

    The library calls of the program are embedded by what they do on
    these values: [re] as a small backtracking matcher over the nodes
    the two patterns use, [os.listdir] as the list of names it returns,
    [os.rename] and [os.replace] with their POSIX behaviour in a
    directory of regular files, [pandas] (2.x) frames as rows of cells
    that hold text or NaN.  The reader [pd.read_csv] converts a column
    whose fields are all numbers or booleans; the frames here are those
    of files without such fields ([plain_file]), and every statement
    about loaded values assumes it.  The streamlit widgets are left
    out; each button handler is a function on the files it reads and
    writes. *)

From Stdlib Require Import Ascii NArith ZArith DecimalString DecimalPos DecimalN.
From stdpp Require Import base option list strings gmap sets sorting.

Local Open Scope N_scope.

(** ** Characters and strings, as the Python primitives see them *)

Module Py.

Definition code (c : ascii) : N := N_of_ascii c.

Definition between (lo hi : N) (c : ascii) : bool :=
  (lo <=? code c) && (code c <=? hi).

(** [\d] on a [str] pattern: the decimal digits (in 0..255 only 0-9). *)
Definition is_digit (c : ascii) : bool := between 48 57 c.

(** The class [[A-Za-z0-9]]. *)
Definition is_alnum (c : ascii) : bool :=
  between 65 90 c || between 97 122 c || between 48 57 c.

(** [str.isspace] on one character, the set [str.strip()] removes. *)
Definition is_space (c : ascii) : bool :=
  between 9 13 c || between 28 32 c || (code c =? 133) || (code c =? 160).

(** [str.lower] on one character: A-Z and the Latin-1 capitals. *)
Definition lower_char (c : ascii) : ascii :=
  if between 65 90 c || (between 192 222 c && negb (code c =? 215))
  then ascii_of_N (code c + 32) else c.

Fixpoint lower (s : string) : string :=
  match s with
  | EmptyString => EmptyString
  | String c s' => String (lower_char c) (lower s')
  end.

Definition is_empty (s : string) : bool :=
  match s with EmptyString => true | _ => false end.

(** [s.startswith(p)], returning the remainder [s[len(p):]]. *)
Fixpoint strip_prefix (p s : string) : option string :=
  match p, s with
  | EmptyString, _ => Some s
  | String a p', String b s' => if Ascii.eqb a b then strip_prefix p' s' else None
  | String _ _, EmptyString => None
  end.

(** [s.endswith(suf)]: some tail of [s] is [suf]. *)
Fixpoint endswith (s suf : string) : bool :=
  String.eqb s suf ||
  match s with
  | EmptyString => false
  | String _ s' => endswith s' suf
  end.

(** [s.endswith(t)] for a tuple [t] of suffixes. *)
Definition endswith_any (s : string) (t : list string) : bool :=
  existsb (endswith s) t.

(** The longest prefix of [s] inside the class, and the rest. *)
Fixpoint span (cls : ascii → bool) (s : string) : string * string :=
  match s with
  | EmptyString => (EmptyString, EmptyString)
  | String c s' =>
      if cls c then let '(r, t) := span cls s' in (String c r, t)
      else (EmptyString, s)
  end.

Fixpoint all_in (cls : ascii → bool) (s : string) : bool :=
  match s with
  | EmptyString => true
  | String c s' => cls c && all_in cls s'
  end.

Fixpoint lstrip (s : string) : string :=
  match s with
  | EmptyString => EmptyString
  | String c s' => if is_space c then lstrip s' else s
  end.

Fixpoint rstrip (s : string) : string :=
  match s with
  | EmptyString => EmptyString
  | String c s' =>
      let r := rstrip s' in
      if is_empty r && is_space c then EmptyString else String c r
  end.

(** [s.strip()] *)
Definition strip (s : string) : string := rstrip (lstrip s).

(** [int(s)] on a string of decimal digits. *)
Definition digit_val (c : ascii) : N := code c - 48.

Fixpoint int_go (acc : N) (s : string) : N :=
  match s with
  | EmptyString => acc
  | String c s' => int_go (10 * acc + digit_val c) s'
  end.

Definition int (s : string) : N := int_go 0 s.

(** [str(n)] for a non-negative [int], as the f-string renders it. *)
Definition str_int (n : N) : string := NilZero.string_of_uint (N.to_uint n).

(** [max(l) if l else d] *)
Definition max_or {A} (mx : A → A → A) (d : A) (l : list A) : A :=
  match l with
  | [] => d
  | x :: l' => foldl mx x l'
  end.

(** [os.path.splitext(p)[1]] for a name without directory separators:
    the text from the last dot on, unless only dots precede it. *)
Fixpoint last_dot_ext (s : string) : option string :=
  match s with
  | EmptyString => None
  | String c s' =>
      match last_dot_ext s' with
      | Some e => Some e
      | None => if Ascii.eqb c "." then Some s else None
      end
  end.

Fixpoint lstrip_dots (s : string) : string :=
  match s with
  | String "." s' => lstrip_dots s'
  | _ => s
  end.

Definition splitext_ext (p : string) : string :=
  match last_dot_ext (lstrip_dots p) with
  | Some e => e
  | None => EmptyString
  end.

End Py.

(** ** The fragment of [re] the program uses *)

Module Re.

Inductive node :=
| Bos                          (* ^ *)
| Lit (s : string)             (* literal text; what re.escape yields *)
| Plus (cls : ascii → bool)    (* cls+, greedy *)
| GroupPlus (cls : ascii → bool) (* (cls+), the capturing group 1 *)
| Eos.                         (* $ *)

(** Greedy repetition with backtracking: take one more character of the
    class when possible, and only when the longer attempt fails hand the
    text consumed so far to the continuation. *)
Fixpoint plus_run (cls : ascii → bool) (k : string → string → option string)
    (acc s : string) : option string :=
  match s with
  | EmptyString => None
  | String c s' =>
      if cls c then
        let acc' := acc +:+ String c EmptyString in
        match plus_run cls k acc' s' with
        | Some g => Some g
        | None => k acc' s'
        end
      else None
  end.

(** [$] without MULTILINE: at the end, or before a final newline. *)
Definition at_eos (s : string) : bool :=
  match s with
  | EmptyString => true
  | String "010" EmptyString => true
  | _ => false
  end.

(** Match the node sequence at the current position.  [pos0] tells
    whether the position is the start of the text, [grp] is the text of
    group 1 so far.  The result is the text of group 1. *)
Fixpoint match_here (re : list node) (pos0 : bool) (grp s : string)
    : option string :=
  match re with
  | [] => Some grp
  | Bos :: re' => if pos0 then match_here re' pos0 grp s else None
  | Lit l :: re' =>
      match Py.strip_prefix l s with
      | Some s' => match_here re' (pos0 && Py.is_empty l) grp s'
      | None => None
      end
  | Plus cls :: re' =>
      plus_run cls (fun _ s' => match_here re' false grp s') EmptyString s
  | GroupPlus cls :: re' =>
      plus_run cls (fun acc s' => match_here re' false acc s') EmptyString s
  | Eos :: re' => if at_eos s then match_here re' pos0 grp s else None
  end.

(** [pat.match(s)]: a match object (here its group 1) or [None]. *)
Definition re_match (re : list node) (s : string) : option string :=
  match_here re true EmptyString s.

Fixpoint search_from (re : list node) (pos0 : bool) (s : string)
    : option string :=
  match match_here re pos0 EmptyString s with
  | Some g => Some g
  | None =>
      match s with
      | EmptyString => None
      | String _ s' => search_from re false s'
      end
  end.

(** [re.search(pat, s)]: the leftmost match. *)
Definition re_search (re : list node) (s : string) : option string :=
  search_from re true s.

End Re.

(** ** Constants *)

Definition CAPTIONS_FILE : string := "captions.csv".
Definition LANDMARKS_FILE : string := "landmarks.csv".
Definition IMG_EXTS : list string :=
  [".png"; ".jpg"; ".jpeg"; ".bmp"; ".gif"; ".tiff"].

(** Python's [sorted] on strings.  Strings are ordered by code point and
    the order is total and antisymmetric, so every correct sort yields
    the same list. *)
Definition sorted (l : list string) : list string :=
  merge_sort String.le l.

(** ** Utilities *)

(** [list_images(folder)]; [listing] is what [os.listdir(folder)] gives. *)
Definition list_images (listing : list string) : list string :=
  sorted (filter (λ f, Py.endswith_any (Py.lower f) IMG_EXTS = true) listing).

Definition pattern_for (shortname : string) : list Re.node :=
  [Re.Bos; Re.Lit "image_"; Re.Lit shortname; Re.Lit "_";
   Re.GroupPlus Py.is_digit; Re.Lit "."; Re.Plus Py.is_alnum; Re.Eos].

Definition validate_step (pat : list Re.node)
    (acc : list string * list string) (f : string)
    : list string * list string :=
  match Re.re_match pat f with
  | Some _ => (acc.1 ++ [f], acc.2)
  | None => (acc.1, acc.2 ++ [f])
  end.

Definition validate_images (listing : list string) (shortname : string)
    : list string * list string * list string :=
  let pat := pattern_for shortname in
  let imgs := list_images listing in
  let '(valids, invalids) := foldl (validate_step pat) ([], []) imgs in
  (valids, invalids, imgs).

Definition serial_re : list Re.node :=
  [Re.Lit "_"; Re.GroupPlus Py.is_digit; Re.Lit "."].

Definition highest_serial (valid_images : list string) : N :=
  let nums :=
    foldl (λ nums name,
             match Re.re_search serial_re name with
             | Some g => nums ++ [Py.int g]
             | None => nums
             end) [] valid_images in
  Py.max_or N.max 0 nums.


(** ** The image folder *)

(** The folder maps each file name to the identity of its content. *)
Definition inode := positive.

Inductive outcome (A : Type) :=
| Returned (a : A)
| Raised.
Arguments Returned {A} a.
Arguments Raised {A}.

(** The longest name of a directory entry, in bytes. *)
Definition NAME_MAX : N := 255.

(** The bytes a name takes on disk (UTF-8). *)
Fixpoint byte_length (s : string) : N :=
  match s with
  | EmptyString => 0
  | String c s' => (if Py.code c <? 128 then 1 else 2) + byte_length s'
  end.

(** The string names an entry of a directory: not empty, not [.] or
    [..], without separator and NUL, within [NAME_MAX]. *)
Definition entry_name (s : string) : bool :=
  negb (Py.is_empty s)
  && negb (String.eqb s ".") && negb (String.eqb s "..")
  && Py.all_in (λ c, negb (Ascii.eqb c "/") && negb (Ascii.eqb c "000")) s
  && (byte_length s <=? NAME_MAX).

(** [os.rename(join(folder, src), join(folder, dst))] in a folder of
    regular files, [src] being the name of an entry: fails when [src]
    is missing and when [dst] is no name of an entry (with a separator
    it names a place in a sub-directory, and the folder has none),
    silently replaces an existing [dst]. *)
Definition os_rename (src dst : string) (fs : gmap string inode)
    : option (gmap string inode) :=
  if entry_name dst then
    match fs !! src with
    | Some i => Some (<[dst:=i]> (delete src fs))
    | None => None
    end
  else None.

Definition new_name_for (shortname : string) (next_id : N) (fname : string)
    : string :=
  "image_" +:+ shortname +:+ "_" +:+ Py.str_int next_id
    +:+ Py.splitext_ext fname.

(** The loop of [rename_invalids_to_valid]; an exception of [os.rename]
    leaves the renames already applied in place. *)
Fixpoint rename_loop (shortname : string) (invalid_images : list string)
    (next_id : N) (renamed : list (string * string)) (fs : gmap string inode)
    : gmap string inode * outcome (list (string * string)) :=
  match invalid_images with
  | [] => (fs, Returned renamed)
  | fname :: rest =>
      let new_name := new_name_for shortname next_id fname in
      match os_rename fname new_name fs with
      | None => (fs, Raised)
      | Some fs' =>
          rename_loop shortname rest (next_id + 1)
            (renamed ++ [(fname, new_name)]) fs'
      end
  end.

Definition rename_invalids_to_valid (fs : gmap string inode)
    (shortname : string) (valid_images invalid_images : list string)
    : gmap string inode * outcome (list (string * string)) :=
  let next_id := highest_serial valid_images + 1 in
  rename_loop shortname invalid_images next_id [] fs.

(** ** Tables and their backing files *)

(** A cell of a frame read from CSV: text, or NaN ([None]). *)
Definition cell := option string.

(** Frames of the two relations: two columns, the image name first. *)
Record DataFrame := mkDataFrame {
  columns : list string;
  rows : list (cell * cell)
}.

(** A well-formed backing file: the header line and the text fields of
    each record. *)
Record csv_file := mkCsv {
  header : list string;
  body : list (string * string)
}.

(** The fields [pd.read_csv] reads as NaN by default. *)
Definition STR_NA_VALUES : list string :=
  [""; "#N/A"; "#N/A N/A"; "#NA"; "-1.#IND"; "-1.#QNAN"; "-NaN"; "-nan";
   "1.#IND"; "1.#QNAN"; "<NA>"; "N/A"; "NA"; "NULL"; "NaN"; "None";
   "n/a"; "nan"; "null"].

Definition is_na (s : string) : bool := bool_decide (s ∈ STR_NA_VALUES).

Definition parse_cell (s : string) : cell :=
  if is_na s then None else Some s.

(** NaN is written as the empty field. *)
Definition cell_text (c : cell) : string := default "" c.







(** [pd.read_csv] on a [plain_file]: every column is kept as text, a
    missing-value token is read as NaN. *)
Definition read_csv (f : csv_file) : DataFrame :=
  mkDataFrame (header f)
    (map (λ r, (parse_cell r.1, parse_cell r.2)) (body f)).

Definition to_csv (df : DataFrame) : csv_file :=
  mkCsv (columns df) (map (λ r, (cell_text r.1, cell_text r.2)) (rows df)).

(** Handlers run on the files of the working directory and may raise. *)
Definition io (A : Type) : Type :=
  gmap string csv_file → gmap string csv_file * outcome A.

Global Instance io_ret : MRet io := λ A a fs, (fs, Returned a).

Global Instance io_bind : MBind io := λ A B k m fs,
  match m fs with
  | (fs', Returned a) => k a fs'
  | (fs', Raised) => (fs', Raised)
  end.

(** Writing a file of the working directory, which holds regular files
    only: fails when [path] is no name of an entry (the directory it
    names is missing). *)
Definition write_file (path : string) (f : csv_file) : io unit :=
  λ fs, if entry_name path then (<[path:=f]> fs, Returned tt)
        else (fs, Raised).

Definition read_file (path : string) : io csv_file :=
  λ fs, match fs !! path with
        | Some f => (fs, Returned f)
        | None => (fs, Raised)
        end.

Definition os_path_exists (path : string) : io bool :=
  λ fs, (fs, Returned (bool_decide (is_Some (fs !! path)))).

(** [os.replace(src, dst)] *)
Definition os_replace (src dst : string) : io unit :=
  λ fs, if entry_name dst then
          match fs !! src with
          | Some f => (<[dst:=f]> (delete src fs), Returned tt)
          | None => (fs, Raised)
          end
        else (fs, Raised).

Definition ensure_csv (path : string) (cols : list string) : io DataFrame :=
  ex ← os_path_exists path;
  (if negb ex then write_file path (to_csv (mkDataFrame cols []))
   else mret tt);;
  f ← read_file path;
  mret (read_csv f).

Definition save_csv_atomic (df : DataFrame) (path : string) : io unit :=
  let tmp := path +:+ ".tmp" in
  write_file tmp (to_csv df);;
  os_replace tmp path.

(** [str(v)] of a cell; NaN prints as nan. *)
Definition str_cell (c : cell) : string := default "nan" c.

(** ["" if pd.isna(v) else str(v)] *)
Definition text_or_empty (c : cell) : string := default "" c.

Definition captions_map (df : DataFrame) : gmap string (list string) :=
  foldl (λ m r,
           let img := str_cell r.1 in
           let cap := text_or_empty r.2 in
           <[img := default [] (m !! img) ++ [cap]]> m) ∅ (rows df).

Definition landmarks_map (df : DataFrame) : gmap string string :=
  foldl (λ m r,
           let img := str_cell r.1 in
           let lm := text_or_empty r.2 in
           <[img := lm]> m) ∅ (rows df).

(** ** Filter helpers *)

Definition caption_count (caps_map_full : gmap string (list string))
    (img : string) : nat :=
  length (default [] (caps_map_full !! img)).

Definition landmark_of (landmarks_full : gmap string string)
    (img : string) : string :=
  default "" (landmarks_full !! img).

Definition build_filters (valid_images : list string)
    (caps_map_full : gmap string (list string))
    (landmarks_full : gmap string string) : list nat * list string :=
  let counts := map (caption_count caps_map_full) valid_images in
  let max_count := Py.max_or Nat.max 0%nat counts in
  let count_options := seq 0 (max_count + 1) in
  let landmark_set : gset string :=
    foldl (λ acc img,
             let lm := landmark_of landmarks_full img in
             if Py.is_empty lm then acc else acc ∪ {[lm]}) ∅ valid_images in
  let landmark_options := "Any" :: sorted (elements landmark_set) in
  (count_options, landmark_options).

Definition apply_filters (valid_images : list string)
    (caps_map_full : gmap string (list string))
    (landmarks_full : gmap string string)
    (cap_min cap_max : Z) (landmark_filter : string) : list string :=
  foldl (λ filtered img,
           let cnt := Z.of_nat (caption_count caps_map_full img) in
           if ((cnt <? cap_min) || (cnt >? cap_max))%Z then filtered
           else
             let lm := landmark_of landmarks_full img in
             if negb (String.eqb landmark_filter "Any")
                && negb (String.eqb lm landmark_filter)
             then filtered
             else filtered ++ [img]) [] valid_images.

(** ** Handlers of the captioning page *)

Definition CAPTION_COLS : list string := ["image_name"; "caption"].
Definition LANDMARK_COLS : list string := ["image_name"; "landmark"].

Definition name_is (img_name : string) (r : cell * cell) : bool :=
  bool_decide (r.1 = Some img_name).

(** The button Save Landmark. *)
Definition save_landmark (img_name new_landmark : string) : io unit :=
  df_land ← ensure_csv LANDMARKS_FILE LANDMARK_COLS;
  let df_land' :=
    if existsb (name_is img_name) (rows df_land)
    then mkDataFrame (columns df_land)
           (map (λ r, if name_is img_name r
                      then (r.1, Some (Py.strip new_landmark)) else r)
                (rows df_land))
    else mkDataFrame (columns df_land)
           (rows df_land ++ [(Some img_name, Some (Py.strip new_landmark))]) in
  save_csv_atomic df_land' LANDMARKS_FILE.

(** The delete button next to an existing caption [c]. *)
Definition delete_caption (img_name c : string) : io unit :=
  df_caps ← ensure_csv CAPTIONS_FILE CAPTION_COLS;
  let df_caps' :=
    mkDataFrame (columns df_caps)
      (filter (λ r, ¬ (r.1 = Some img_name ∧ r.2 = Some c)) (rows df_caps)) in
  save_csv_atomic df_caps' CAPTIONS_FILE.


(** The button Save captions file. *)
Definition save_captions_file : io unit :=
  df_caps ← ensure_csv CAPTIONS_FILE CAPTION_COLS;
  save_csv_atomic df_caps CAPTIONS_FILE.

(** ** Controls of the captioning page *)

Module PyList.

(** [l[i]]: a negative index counts from the end; [None] stands for
    IndexError. *)
Definition getitem {A} (l : list A) (i : Z) : option A :=
  if (0 <=? i)%Z then l !! Z.to_nat i
  else if (- Z.of_nat (length l) <=? i)%Z
       then l !! Z.to_nat (Z.of_nat (length l) + i)
       else None.

(** [l.index(x)]: the first position of [x]; [None] stands for
    ValueError. *)
Fixpoint index `{EqDecision A} (l : list A) (x : A) : option nat :=
  match l with
  | [] => None
  | y :: l' => if decide (y = x) then Some 0%nat else S <$> index l' x
  end.

(** The truth value of a list. *)
Definition truthy {A} (l : list A) : bool :=
  match l with [] => false | _ => true end.

End PyList.

(** The filter values kept in the session. *)
Record filter_state := mkFilterState {
  st_cap_min : Z;
  st_cap_max : Z;
  st_landmark_filter : string;
  st_filter_applied : bool
}.

(** The filter values [init_state] sets in a new session. *)
Definition init_filters : filter_state := mkFilterState 0 10 "Any" false.

(** The default shown by the selector Min captions. *)
Definition cap_min_default (cap_min : Z) (count_options : list Z)
    : option Z :=
  if decide (cap_min ∈ count_options) then Some cap_min
  else if PyList.truthy count_options then PyList.getitem count_options 0
       else Some 0%Z.

(** The default shown by the selector Max captions. *)
Definition cap_max_default (cap_max : Z) (count_options : list Z)
    : option Z :=
  if decide (cap_max ∈ count_options) then Some cap_max
  else if PyList.truthy count_options
       then PyList.getitem count_options (-1)
       else Some 0%Z.

(** The options and the index handed to a count selector. *)
Definition count_selector (default : option Z) (count_options : list Z)
    : option (list Z * nat) :=
  d ← default;
  i ← (if PyList.truthy count_options then PyList.index count_options d
       else Some 0%nat);
  Some (if PyList.truthy count_options then count_options else [0%Z], i).

(** The options and the index handed to the selector Landmark. *)
Definition landmark_selector (landmark_filter : string)
    (landmark_options : list string) : option (list string * nat) :=
  i ← (if decide (landmark_filter ∈ landmark_options)
       then PyList.index landmark_options landmark_filter
       else Some 0%nat);
  Some (landmark_options, i).

(** The button Apply Filter with the values the selectors return; the
    text is the message shown. *)
Definition apply_filter_click (c_min c_max : Z) (lm_choice : string)
    (st : filter_state) : filter_state * string :=
  if (c_min >? c_max)%Z then (st, "Min cannot be greater than Max.")
  else (mkFilterState c_min c_max lm_choice true, "Filter applied.").

(** Keep current index within bounds of filtered list. *)
Definition clamp_index (caption_index : Z) (len : nat) : Z :=
  Z.max 0 (Z.min caption_index (Z.of_nat len - 1)).

(** The buttons Prev and Next at index [idx] of [len] images. *)
Definition nav_prev (idx : Z) : Z :=
  if (idx >? 0)%Z then (idx - 1)%Z else idx.

Definition nav_next (idx : Z) (len : nat) : Z :=
  if (idx <? Z.of_nat len - 1)%Z then (idx + 1)%Z else idx.

(** The two summary lists below the captions. *)
Definition imgs_with_caps (filtered_images : list string)
    (caps_map_full : gmap string (list string)) : list string :=
  filter (λ i, (0 < caption_count caps_map_full i)%nat) filtered_images.

Definition imgs_without_caps (filtered_images : list string)
    (caps_map_full : gmap string (list string)) : list string :=
  filter (λ i, caption_count caps_map_full i = 0%nat) filtered_images.

(** ** Vocabulary of the specification *)

(** A string does not begin with a character of the class. *)
Definition stops (cls : ascii → bool) (t : string) : Prop :=
  match t with
  | EmptyString => True
  | String c _ => cls c = false
  end.

(** The newline character as a string. *)
Definition nl : string := String "010" "".

(** The name [image_<shortname>_<digits>.<ext>] in the words of the
    specification. *)
Definition canonical (shortname f : string) : Prop :=
  ∃ digits ext,
    f = "image_" +:+ shortname +:+ "_" +:+ digits +:+ "." +:+ ext
    ∧ digits ≠ "" ∧ Py.all_in Py.is_digit digits = true
    ∧ ext ≠ "" ∧ Py.all_in Py.is_alnum ext = true.

(** A name passes the extension filter of [list_images]. *)
Definition listed (f : string) : Prop :=
  Py.endswith_any (Py.lower f) IMG_EXTS = true.

(** A name is matched by the pattern of the short name. *)
Definition matched (shortname f : string) : Prop :=
  is_Some (Re.re_match (pattern_for shortname) f).

(** The text [_<digits>.] occurs in [f] right after [pre], with digit
    group [g]. *)
Definition occurrence (f pre g post : string) : Prop :=
  f = pre +:+ "_" +:+ g +:+ "." +:+ post
  ∧ g ≠ "" ∧ Py.all_in Py.is_digit g = true.


(** [serial(f)] of the allocation rule. *)
Definition serial (f : string) : option N :=
  Py.int <$> Re.re_search serial_re f.

(** The name the renamer gives to the [k]-th invalid file. *)
Definition renamed_to (shortname : string) (first : N) (k : nat)
    (fname : string) : string * string :=
  (fname,
   "image_" +:+ shortname +:+ "_" +:+ Py.str_int (first + N.of_nat k)
     +:+ Py.splitext_ext fname).

(** The folder after one rename of the mapping; a rename that would
    raise changes nothing. *)
Definition apply_rename (fs : gmap string inode) (p : string * string)
    : gmap string inode :=
  default fs (os_rename p.1 p.2 fs).

(** The keep condition of the specification. *)
Definition keeps (caps_map_full : gmap string (list string))
    (landmarks_full : gmap string string)
    (cap_min cap_max : Z) (landmark_filter : string) (img : string) : Prop :=
  (cap_min ≤ Z.of_nat (caption_count caps_map_full img) ≤ cap_max)%Z
  ∧ (landmark_filter = "Any" ∨ landmark_of landmarks_full img = landmark_filter).

Global Instance keeps_dec caps lms mn mx lf img :
  Decision (keeps caps lms mn mx lf img).
Proof. unfold keeps. apply _. Defined.

(** What [load] returns for a backing file: the rows read from it, none
    when the file is missing. *)
Definition relation (path : string) (fs : gmap string csv_file)
    : list (cell * cell) :=
  match fs !! path with
  | Some f => rows (read_csv f)
  | None => []
  end.

(** A cell after it has been written and read back. *)
Definition reparse (c : cell) : cell := parse_cell (cell_text c).

(** The rows of a frame after [to_csv] and [read_csv]. *)
Definition reload (rel : list (cell * cell)) : list (cell * cell) :=
  map (λ r, (reparse r.1, reparse r.2)) rel.

(** Rows that were read from a file survive a save unchanged. *)
Definition parsed (rel : list (cell * cell)) : Prop :=
  Forall (λ r, reparse r.1 = r.1 ∧ reparse r.2 = r.2) rel.

(** The rows of [rel] that belong to the image. *)
Definition rows_for (img : string) (rel : list (cell * cell))
    : list (cell * cell) :=
  filter (λ r, r.1 = Some img) rel.


(** The last character of [s] is in the class. *)
Fixpoint ends_in (cls : ascii → bool) (s : string) : bool :=
  match s with
  | EmptyString => false
  | String c EmptyString => cls c
  | String _ s' => ends_in cls s'
  end.


(** The guarantee of the specification: after an upsert the image has
    exactly one row. *)
Definition upsert_leaves_one_row (fs : gmap string csv_file)
    (img text : string) : Prop :=
  length (rows_for img (relation LANDMARKS_FILE (save_landmark img text fs).1))
  = 1%nat.







(** The captions of every image, built from what [load] returns. *)
Definition captions_view (fs : gmap string csv_file)
    : gmap string (list string) :=
  captions_map (mkDataFrame CAPTION_COLS (relation CAPTIONS_FILE fs)).


(** The temporary sibling that [save_csv_atomic] writes first. *)
Definition tmp_of (path : string) : string := path +:+ ".tmp".

(** The string holds no dot. *)
Definition no_dot (s : string) : Prop :=
  Py.all_in (λ c, negb (Ascii.eqb c ".")) s = true.

(** The string holds dots only. *)
Definition all_dots (s : string) : bool :=
  Py.all_in (λ c, Ascii.eqb c ".") s.

(** * Properties *)

Example list_images_ex :
  list_images ["b.PNG"; "notes.txt"; "a.jpeg"; "image_a_1.png"; ".gif"]
  = [".gif"; "a.jpeg"; "b.PNG"; "image_a_1.png"].
Proof. vm_compute. reflexivity. Qed.

Example validate_images_ex :
  validate_images ["photo.jpg"; "image_a_3.png"; "image_a_1.png"; "x.png";
                   "image_a_2.png.bmp"; "image_ab_1.png"; "image_a_.png"] "a"
  = (["image_a_1.png"; "image_a_3.png"],
     ["image_a_.png"; "image_a_2.png.bmp"; "image_ab_1.png"; "photo.jpg"; "x.png"],
     ["image_a_.png"; "image_a_1.png"; "image_a_2.png.bmp"; "image_a_3.png";
      "image_ab_1.png"; "photo.jpg"; "x.png"]).
Proof. vm_compute. reflexivity. Qed.

Example highest_serial_ex :
  highest_serial ["image_a_3.png"; "image_a_1.png"; "image_a_x.png"] = 3.
Proof. vm_compute. reflexivity. Qed.

(** ** Strings *)

Section string_facts.

Implicit Types (s t r : string) (c : ascii) (cls : ascii → bool).

Lemma sapp_cons c s t : String c s +:+ t = String c (s +:+ t).
Proof. reflexivity. Qed.

Lemma sapp_empty_l t : "" +:+ t = t.
Proof. reflexivity. Qed.

Lemma sapp_empty_r s : s +:+ "" = s.
Proof. induction s as [|c s IH]; [done|]. by rewrite sapp_cons, IH. Qed.

Lemma sapp_assoc s t r : (s +:+ t) +:+ r = s +:+ (t +:+ r).
Proof. induction s as [|c s IH]; [done|]. by rewrite !sapp_cons, IH. Qed.

Lemma is_empty_true s : Py.is_empty s = true ↔ s = "".
Proof. by destruct s. Qed.

Lemma is_empty_false s : Py.is_empty s = false ↔ s ≠ "".
Proof. by destruct s. Qed.

Lemma sapp_eq_empty s t : s +:+ t = "" → s = "" ∧ t = "".
Proof. by destruct s. Qed.

Lemma strip_prefix_app s t : Py.strip_prefix s (s +:+ t) = Some t.
Proof.
  induction s as [|c s IH]; [done|].
  rewrite sapp_cons. simpl. by rewrite Ascii.eqb_refl.
Qed.

Lemma strip_prefix_Some s t r : Py.strip_prefix s t = Some r → t = s +:+ r.
Proof.
  revert t. induction s as [|c s IH]; intros t; simpl.
  - by intros [= ->].
  - destruct t as [|b t]; [done|].
    destruct (Ascii.eqb_spec c b) as [->|]; [|done].
    intros ->%IH. by rewrite sapp_cons.
Qed.

Lemma strip_prefix_iff s t r : Py.strip_prefix s t = Some r ↔ t = s +:+ r.
Proof.
  split; [apply strip_prefix_Some|]. intros ->. apply strip_prefix_app.
Qed.

Lemma span_spec cls s :
  s = (Py.span cls s).1 +:+ (Py.span cls s).2
  ∧ Py.all_in cls (Py.span cls s).1 = true
  ∧ stops cls (Py.span cls s).2.
Proof.
  induction s as [|c s (IH1 & IH2 & IH3)]; simpl; [done|].
  destruct (cls c) eqn:Hc; [|done].
  destruct (Py.span cls s) as [r t]; simpl in *.
  rewrite sapp_cons, <-IH1, Hc. done.
Qed.

Lemma span_app cls r t :
  Py.all_in cls r = true → stops cls t → Py.span cls (r +:+ t) = (r, t).
Proof.
  intros Hr Ht. induction r as [|c r IH]; simpl in *.
  - rewrite sapp_empty_l. destruct t as [|c t]; simpl in *; [done|].
    by rewrite Ht.
  - apply andb_prop in Hr as [Hc Hr]. rewrite ?sapp_cons. simpl.
    by rewrite Hc, IH.
Qed.

End string_facts.

(** ** The matcher *)

Section matcher.

Implicit Types (s t r g : string) (c : ascii) (cls : ascii → bool).

(** When what follows a repetition cannot begin with a character of the
    class, backtracking never succeeds and the repetition takes exactly
    the longest run. *)
Lemma plus_run_span cls (k : string → string → option string) acc s :
  (∀ a c t, cls c = true → k a (String c t) = None) →
  Re.plus_run cls k acc s =
    if Py.is_empty (Py.span cls s).1 then None
    else k (acc +:+ (Py.span cls s).1) (Py.span cls s).2.
Proof.
  intros Hk. revert acc. induction s as [|c s IH]; intros acc; simpl; [done|].
  destruct (cls c) eqn:Hc; [|done].
  rewrite IH. destruct (Py.span cls s) as [r t] eqn:Hsp; simpl.
  destruct r as [|b r]; simpl.
  - pose proof (span_spec cls s) as (Hs & _ & _). rewrite Hsp in Hs.
    simpl in Hs. rewrite sapp_empty_l in Hs. by subst t.
  - pose proof (span_spec cls s) as (Hs & Hall & _). rewrite Hsp in Hs, Hall.
    simpl in Hs, Hall. apply andb_prop in Hall as [Hb _].
    rewrite sapp_assoc, sapp_cons, sapp_empty_l.
    destruct (k _ t) as [g|] eqn:Hg; [done|].
    rewrite Hs, sapp_cons. by rewrite Hk.
Qed.

Lemma at_eos_iff s : Re.at_eos s = true ↔ s = "" ∨ s = String "010" "".
Proof.
  split.
  - destruct s as [|c [|b s]]; simpl; auto.
    + destruct (Ascii.eqb_spec c "010") as [->|Hne]; [auto|].
      destruct c as [[] [] [] [] [] [] [] []]; done.
    + destruct c as [[] [] [] [] [] [] [] []]; done.
  - by intros [-> | ->].
Qed.

End matcher.

(** ** The canonical pattern *)

Ltac bind_some :=
  match goal with
  | |- context [Some ?x ≫= ?k] => change (Some x ≫= k) with (k x); cbv beta
  end.

Section pattern.

Implicit Types (s t r g f : string) (c : ascii).

Lemma dot_not_digit c t :
  Py.is_digit c = true → Py.strip_prefix "." (String c t) = None.
Proof.
  intros Hc. cbn [Py.strip_prefix].
  destruct (Ascii.eqb_spec "." c) as [<-|]; [|done].
  by vm_compute in Hc.
Qed.

Lemma alnum_not_eos c t :
  Py.is_alnum c = true → Re.at_eos (String c t) = false.
Proof.
  intros Hc. destruct (Re.at_eos (String c t)) eqn:He; [|done].
  apply at_eos_iff in He as [?|[= -> ->]]; [done|]. by vm_compute in Hc.
Qed.

(** On the canonical pattern the matcher is a straight-line scan. *)
Lemma re_match_pattern_for shortname f :
  Re.re_match (pattern_for shortname) f =
    s1 ← Py.strip_prefix "image_" f;
    s2 ← Py.strip_prefix shortname s1;
    s3 ← Py.strip_prefix "_" s2;
    let d := Py.span Py.is_digit s3 in
    if Py.is_empty d.1 then None else
    s4 ← Py.strip_prefix "." d.2;
    let e := Py.span Py.is_alnum s4 in
    if Py.is_empty e.1 then None else
    if Re.at_eos e.2 then Some d.1 else None.
Proof.
  unfold Re.re_match, pattern_for. cbn [Re.match_here].
  destruct (Py.strip_prefix "image_" f) as [s1|]; [bind_some|reflexivity].
  destruct (Py.strip_prefix shortname s1) as [s2|]; [bind_some|reflexivity].
  destruct (Py.strip_prefix "_" s2) as [s3|]; [bind_some|reflexivity].
  rewrite plus_run_span.
  2:{ intros a c t Hc. by rewrite dot_not_digit. }
  cbn zeta. destruct (Py.is_empty _); [done|]. rewrite sapp_empty_l.
  destruct (Py.strip_prefix "." _) as [s4|]; [bind_some|reflexivity].
  rewrite plus_run_span.
  2:{ intros a c t Hc. by rewrite alnum_not_eos. }
  done.
Qed.

Lemma stops_digit_dot t : stops Py.is_digit ("." +:+ t).
Proof. done. Qed.

Lemma re_match_pattern_iff shortname f g :
  Re.re_match (pattern_for shortname) f = Some g ↔
  ∃ ext tail,
    f = "image_" +:+ shortname +:+ "_" +:+ g +:+ "." +:+ ext +:+ tail
    ∧ g ≠ "" ∧ Py.all_in Py.is_digit g = true
    ∧ ext ≠ "" ∧ Py.all_in Py.is_alnum ext = true
    ∧ (tail = "" ∨ tail = String "010" "").
Proof.
  rewrite re_match_pattern_for. split.
  - destruct (Py.strip_prefix "image_" f) as [s1|] eqn:H1;
      [bind_some|discriminate].
    destruct (Py.strip_prefix shortname s1) as [s2|] eqn:H2;
      [bind_some|discriminate].
    destruct (Py.strip_prefix "_" s2) as [s3|] eqn:H3;
      [bind_some|discriminate].
    cbn zeta.
    pose proof (span_spec Py.is_digit s3) as (Hs3 & Hd & _).
    destruct (Py.span Py.is_digit s3) as [d s3'].
    cbn [fst snd] in *.
    destruct (Py.is_empty d) eqn:Hde; [done|].
    destruct (Py.strip_prefix "." s3') as [s4|] eqn:H4;
      [bind_some|discriminate].
    pose proof (span_spec Py.is_alnum s4) as (Hs4 & He & _).
    destruct (Py.span Py.is_alnum s4) as [e s4'].
    cbn [fst snd] in *.
    destruct (Py.is_empty e) eqn:Hee; [done|].
    destruct (Re.at_eos s4') eqn:Heos; [|done].
    intros [= <-]. exists e, s4'.
    apply strip_prefix_Some in H1, H2, H3, H4.
    apply is_empty_false in Hde, Hee. apply at_eos_iff in Heos.
    split_and!; try done. by subst f s1 s2 s3 s3' s4.
  - intros (ext & tail & -> & Hg & Hd & He & Ha & Htail).
    rewrite strip_prefix_app. bind_some.
    rewrite strip_prefix_app. bind_some.
    rewrite strip_prefix_app. bind_some. cbn zeta.
    rewrite (span_app _ g _ Hd (stops_digit_dot _)). cbn [fst snd].
    apply is_empty_false in Hg as ->.
    rewrite strip_prefix_app. bind_some.
    rewrite (span_app _ ext tail Ha).
    2:{ by destruct Htail as [-> | ->]. }
    cbn [fst snd]. apply is_empty_false in He as ->.
    assert (Re.at_eos tail = true) as -> by by apply at_eos_iff.
    done.
Qed.

End pattern.

(** ** The classifier *)

Section classifier.

Implicit Types (s t f : string) (c : ascii) (l listing : list string).

Lemma lower_app s t : Py.lower (s +:+ t) = Py.lower s +:+ Py.lower t.
Proof.
  induction s as [|c s IH]; [done|].
  rewrite sapp_cons. cbn [Py.lower]. by rewrite IH, sapp_cons.
Qed.

Lemma endswith_refl s : Py.endswith s s = true.
Proof. destruct s; cbn [Py.endswith]; by rewrite String.eqb_refl. Qed.

Lemma endswith_cons c s suf :
  Py.endswith (String c s) suf
  = String.eqb (String c s) suf || Py.endswith s suf.
Proof. done. Qed.

Lemma endswith_app s t : Py.endswith (s +:+ t) t = true.
Proof.
  induction s as [|c s IH]; [apply endswith_refl|].
  rewrite sapp_cons, endswith_cons, IH. apply orb_true_r.
Qed.

Lemma endswith_newline s suf :
  Py.endswith (Py.lower (s +:+ nl)) suf = true →
  suf = "" ∨ Py.endswith suf nl = true.
Proof.
  induction s as [|c s IH].
  - rewrite sapp_empty_l. change (Py.lower nl) with nl.
    unfold nl at 1. rewrite endswith_cons. cbn [Py.endswith].
    rewrite orb_false_r. intros [H|H]%orb_prop.
    + apply String.eqb_eq in H as <-. by right.
    + apply String.eqb_eq in H as <-. by left.
  - rewrite sapp_cons. cbn [Py.lower]. rewrite endswith_cons.
    intros [H|H]%orb_prop; [|by apply IH].
    apply String.eqb_eq in H as <-. right.
    change (String (Py.lower_char c) (Py.lower (s +:+ nl)))
      with (Py.lower (String c (s +:+ nl))).
    rewrite <-sapp_cons, lower_app. change (Py.lower nl) with nl.
    apply endswith_app.
Qed.

(** No listed name ends in a newline. *)
Lemma listed_no_newline s : ¬ listed (s +:+ nl).
Proof.
  unfold listed, Py.endswith_any. intros H.
  apply existsb_exists in H as (e & He & Hend).
  apply endswith_newline in Hend.
  unfold IMG_EXTS in He. simpl in He.
  destruct He as [<-|[<-|[<-|[<-|[<-|[<-|[]]]]]]];
    destruct Hend as [?|Hend]; (done || by vm_compute in Hend).
Qed.

Lemma list_images_perm listing : list_images listing ≡ₚ filter listed listing.
Proof. unfold list_images, sorted. apply merge_sort_Permutation. Qed.

Lemma list_images_sorted listing : StronglySorted String.le (list_images listing).
Proof. unfold list_images, sorted. apply StronglySorted_merge_sort; apply _. Qed.

Lemma list_images_elem listing f :
  f ∈ list_images listing ↔ listed f ∧ f ∈ listing.
Proof. by rewrite list_images_perm, list_elem_of_filter. Qed.

Lemma validate_fold pat l a b :
  foldl (validate_step pat) (a, b) l
  = (a ++ filter (λ f, is_Some (Re.re_match pat f)) l,
     b ++ filter (λ f, ¬ is_Some (Re.re_match pat f)) l).
Proof.
  revert a b. induction l as [|f l IH]; intros a b; simpl.
  - by rewrite !app_nil_r.
  - unfold validate_step at 2. simpl.
    destruct (Re.re_match pat f) as [g|] eqn:Hm; rewrite IH.
    + rewrite filter_cons_True by (by rewrite Hm).
      rewrite filter_cons_False by (rewrite Hm; by intros []).
      by rewrite <-app_assoc.
    + rewrite filter_cons_False by (rewrite Hm; by inv 1).
      rewrite filter_cons_True by (rewrite Hm; by inv 1).
      by rewrite <-app_assoc.
Qed.

Lemma validate_images_eq listing shortname :
  validate_images listing shortname
  = (filter (matched shortname) (list_images listing),
     filter (λ f, ¬ matched shortname f) (list_images listing),
     list_images listing).
Proof. unfold validate_images. by rewrite validate_fold. Qed.

(** What the raw pattern accepts: the canonical names, and, because [$]
    also matches before a final newline, a canonical name followed by
    one newline. *)
Lemma matched_iff shortname f :
  matched shortname f ↔
  canonical shortname f ∨ ∃ f0, f = f0 +:+ nl ∧ canonical shortname f0.
Proof.
  unfold matched, is_Some. split.
  - intros [g Hg]. apply re_match_pattern_iff in Hg
      as (ext & tail & -> & Hg & Hd & He & Ha & [-> | ->]).
    + left. exists g, ext. by rewrite sapp_empty_r.
    + right. exists ("image_" +:+ shortname +:+ "_" +:+ g +:+ "." +:+ ext).
      split; [by rewrite !sapp_assoc|]. by exists g, ext.
  - intros [(g & ext & -> & Hg & Hd & He & Ha)
           |(f0 & -> & g & ext & -> & Hg & Hd & He & Ha)].
    + exists g. apply re_match_pattern_iff. exists ext, "".
      rewrite sapp_empty_r. split_and!; auto.
    + exists g. apply re_match_pattern_iff. exists ext, nl.
      split_and!; auto. by rewrite !sapp_assoc.
Qed.

Lemma listed_matched_canonical shortname f :
  listed f → (matched shortname f ↔ canonical shortname f).
Proof.
  intros Hl. rewrite matched_iff. split; [|by left].
  intros [?|(f0 & -> & _)]; [done|]. by apply listed_no_newline in Hl.
Qed.

End classifier.

(** C4: the classifier returns a strict partition of the sorted,
    extension-filtered listing: [valid] and [invalid] share no name,
    together they are exactly [all], [all] is the filtered listing in
    lexicographic order, and both parts keep that order. *)
Theorem classify_partition (listing : list string) (shortname : string) :
  let '(valid, invalid, all) := validate_images listing shortname in
  (∀ f, ¬ (f ∈ valid ∧ f ∈ invalid))
  ∧ (∀ f, f ∈ all ↔ f ∈ valid ∨ f ∈ invalid)
  ∧ valid ++ invalid ≡ₚ all
  ∧ all ≡ₚ filter listed listing
  ∧ StronglySorted String.le all
  ∧ valid `sublist_of` all
  ∧ invalid `sublist_of` all.
Proof.
  rewrite validate_images_eq. split_and!.
  - intros f [H1 H2]. apply list_elem_of_filter in H1 as [H1 _].
    apply list_elem_of_filter in H2 as [H2 _]. done.
  - intros f. rewrite !list_elem_of_filter.
    destruct (decide (matched shortname f)); tauto.
  - apply filter_app_complement.
  - apply list_images_perm.
  - apply list_images_sorted.
  - apply sublist_filter.
  - apply sublist_filter.
Qed.

(** C5: a file of the filtered listing is classified valid exactly
    when its name is [image_<shortname>_<digits>.<ext>], with a
    non-empty run of decimal digits, one non-empty alphanumeric
    extension, and nothing before or after; the short name is matched
    literally.  The other files of the listing are the invalid ones. *)
Theorem classify_valid_iff_canonical
    (listing : list string) (shortname f : string) :
  let '(valid, invalid, all) := validate_images listing shortname in
  (f ∈ all → (f ∈ valid ↔ canonical shortname f))
  ∧ (f ∈ valid ↔ f ∈ all ∧ canonical shortname f)
  ∧ (f ∈ invalid ↔ f ∈ all ∧ ¬ canonical shortname f).
Proof.
  rewrite validate_images_eq.
  assert (f ∈ list_images listing →
          (matched shortname f ↔ canonical shortname f)) as Hm.
  { intros [Hl _]%list_images_elem. by apply listed_matched_canonical. }
  rewrite !list_elem_of_filter. split_and!; tauto.
Qed.

Lemma classify_valid_iff_canonical_witness :
  "image_a.b_12.PNG"
    ∈ (validate_images ["x.png"; "image_a.b_12.PNG"; "image_axb_1.png"] "a.b").1.1
  ↔ canonical "a.b" "image_a.b_12.PNG".
Proof.
  pose proof (classify_valid_iff_canonical
    ["x.png"; "image_a.b_12.PNG"; "image_axb_1.png"] "a.b" "image_a.b_12.PNG")
    as H.
  destruct (validate_images _ _) as [[valid invalid] all] eqn:E.
  destruct H as (H & _). simpl. apply H.
  injection E as _ _ <-. vm_compute. apply list_elem_of_here.
Defined.

(** ** Serial numbers *)

Section serials.

Implicit Types (s t f g : string) (c : ascii).

Lemma match_here_serial pos0 s :
  Re.match_here serial_re pos0 "" s =
    s1 ← Py.strip_prefix "_" s;
    let d := Py.span Py.is_digit s1 in
    if Py.is_empty d.1 then None else
    _ ← Py.strip_prefix "." d.2; Some d.1.
Proof.
  unfold serial_re. cbn [Re.match_here].
  destruct (Py.strip_prefix "_" s) as [s1|]; [bind_some|reflexivity].
  rewrite plus_run_span.
  2:{ intros a c t Hc. by rewrite dot_not_digit. }
  cbn zeta. destruct (Py.is_empty _); [done|]. rewrite sapp_empty_l.
  by destruct (Py.strip_prefix "." _).
Qed.

Lemma match_here_serial_iff pos0 s g :
  Re.match_here serial_re pos0 "" s = Some g ↔
  ∃ post, occurrence s "" g post.
Proof.
  rewrite match_here_serial. unfold occurrence. split.
  - destruct (Py.strip_prefix "_" s) as [s1|] eqn:H1;
      [bind_some|discriminate].
    cbn zeta.
    pose proof (span_spec Py.is_digit s1) as (Hs1 & Hd & _).
    destruct (Py.span Py.is_digit s1) as [d s1']. cbn [fst snd] in *.
    destruct (Py.is_empty d) eqn:Hde; [done|].
    destruct (Py.strip_prefix "." s1') as [s2|] eqn:H2;
      [bind_some|discriminate].
    intros [= <-]. exists s2.
    apply strip_prefix_Some in H1, H2. apply is_empty_false in Hde.
    split_and!; try done. by subst s s1 s1'.
  - intros (post & -> & Hg & Hd). rewrite sapp_empty_l.
    rewrite strip_prefix_app. bind_some. cbn zeta.
    rewrite (span_app _ g _ Hd (stops_digit_dot _)). cbn [fst snd].
    apply is_empty_false in Hg as ->.
    rewrite strip_prefix_app. by bind_some.
Qed.





Lemma foldl_max_foldr (x : N) (l : list N) :
  foldl N.max x l = N.max x (foldr N.max 0 l).
Proof.
  revert x. induction l as [|y l IH]; intros x; simpl; [lia|].
  rewrite IH. lia.
Qed.

Lemma max_or_foldr (l : list N) : Py.max_or N.max 0 l = foldr N.max 0 l.
Proof. destruct l as [|x l]; simpl; [done|]. apply foldl_max_foldr. Qed.

Lemma highest_serial_nums (valid : list string) (acc : list N) :
  foldl (λ nums name,
           match Re.re_search serial_re name with
           | Some g => nums ++ [Py.int g]
           | None => nums
           end) acc valid
  = acc ++ omap serial valid.
Proof.
  revert acc. induction valid as [|f valid IH]; intros acc; simpl.
  - by rewrite app_nil_r.
  - rewrite IH. unfold serial at 2.
    destruct (Re.re_search serial_re f); simpl; [|done].
    by rewrite <-app_assoc.
Qed.

Lemma highest_serial_eq (valid : list string) :
  highest_serial valid = foldr N.max 0 (omap serial valid).
Proof.
  unfold highest_serial. by rewrite highest_serial_nums, max_or_foldr.
Qed.

End serials.

(** ** The renamer *)

Section renamer.

Implicit Types (s t f : string) (fs : gmap string inode)
  (renamed : list (string * string)).

Lemma renamed_to_succ shortname next (l : list string) :
  imap (renamed_to shortname next ∘ S) l
  = imap (renamed_to shortname (next + 1)) l.
Proof.
  apply imap_ext. intros k f _. unfold renamed_to. simpl.
  by replace (next + N.of_nat (S k)) with (next + 1 + N.of_nat k) by lia.
Qed.

Lemma renamed_to_zero shortname next f :
  renamed_to shortname next 0 f = (f, new_name_for shortname next f).
Proof. unfold renamed_to, new_name_for. simpl. by rewrite N.add_0_r. Qed.

(** When the loop returns, it returns the planned mapping and has
    applied exactly these renames, in order. *)
Lemma rename_loop_returned shortname invalid next renamed fs fs' l :
  rename_loop shortname invalid next renamed fs = (fs', Returned l) →
  l = renamed ++ imap (renamed_to shortname next) invalid
  ∧ fs' = foldl apply_rename fs (imap (renamed_to shortname next) invalid).
Proof.
  revert next renamed fs.
  induction invalid as [|f invalid IH]; intros next renamed fs; simpl.
  - intros [= <- <-]. by rewrite app_nil_r.
  - rewrite renamed_to_zero, renamed_to_succ.
    unfold apply_rename at 2. simpl.
    destruct (os_rename f _ fs) as [fs1|] eqn:Hr; [|done].
    intros [-> ->]%IH. by rewrite <-app_assoc.
Qed.


Lemma apply_rename_moves fs src dst i :
  fs !! src = Some i → entry_name dst = true →
  apply_rename fs (src, dst) = <[dst:=i]> (delete src fs).
Proof.
  intros Hi Hd. unfold apply_rename, os_rename. simpl. by rewrite Hd, Hi.
Qed.

(** The loop returns when every file to rename is present and listed
    once and every new name is the name of an entry. *)
Lemma rename_loop_returns shortname invalid next renamed fs :
  NoDup invalid → (∀ f, f ∈ invalid → is_Some (fs !! f)) →
  (∀ k f, invalid !! k = Some f →
     entry_name (new_name_for shortname (next + N.of_nat k) f) = true) →
  ∃ fs' l, rename_loop shortname invalid next renamed fs = (fs', Returned l).
Proof.
  revert next renamed fs.
  induction invalid as [|f invalid IH];
    intros next renamed fs Hnd Hin Hnames; simpl.
  - eauto.
  - apply NoDup_cons in Hnd as [Hf Hnd].
    unfold os_rename.
    pose proof (Hnames 0%nat f eq_refl) as H0. rewrite N.add_0_r in H0.
    rewrite H0.
    destruct (Hin f) as [i Hi]; [left|]. rewrite Hi.
    apply IH; [done| |].
    + intros g Hg.
      destruct (decide (new_name_for shortname next f = g)) as [->|Hne].
      * rewrite lookup_insert_eq. eauto.
      * rewrite lookup_insert_ne by done.
        rewrite lookup_delete_ne by (intros ->; done).
        apply Hin. by right.
    + intros k g Hk. specialize (Hnames (S k) g Hk).
      by replace (next + 1 + N.of_nat k) with (next + N.of_nat (S k)) by lia.
Qed.






End renamer.



(** ** The filter engine *)

Section filters.

Local Open Scope nat_scope.

Implicit Types (valid : list string) (caps : gmap string (list string))
  (lms : gmap string string) (img : string).

Lemma apply_filters_fold valid caps lms mn mx lf (acc : list string) :
  foldl (λ filtered img,
           let cnt := Z.of_nat (caption_count caps img) in
           if ((cnt <? mn) || (cnt >? mx))%Z then filtered
           else
             let lm := landmark_of lms img in
             if negb (String.eqb lf "Any") && negb (String.eqb lm lf)
             then filtered
             else filtered ++ [img]) acc valid
  = acc ++ filter (keeps caps lms mn mx lf) valid.
Proof.
  revert acc. induction valid as [|img valid IH]; intros acc; simpl.
  - by rewrite app_nil_r.
  - rewrite IH. clear IH. unfold filter at 2. simpl.
    fold (filter (keeps caps lms mn mx lf) valid).
    destruct (decide (keeps caps lms mn mx lf img)) as [Hk|Hk];
      unfold keeps in Hk.
    + destruct Hk as [[H1 H2] H3].
      assert ((Z.of_nat (caption_count caps img) <? mn)%Z = false) as ->
        by lia.
      assert ((Z.of_nat (caption_count caps img) >? mx)%Z = false) as ->
        by lia.
      simpl.
      assert (negb (String.eqb lf "Any")
              && negb (String.eqb (landmark_of lms img) lf) = false) as ->.
      { destruct H3 as [-> | ->]; [done|].
        rewrite String.eqb_refl. apply andb_false_r. }
      by rewrite <-app_assoc.
    + destruct (Z.of_nat (caption_count caps img) <? mn)%Z eqn:E1; [done|].
      destruct (Z.of_nat (caption_count caps img) >? mx)%Z eqn:E2; [done|].
      simpl.
      destruct (String.eqb_spec lf "Any") as [->|Hne].
      { exfalso. apply Hk. split; [lia|by left]. }
      destruct (String.eqb_spec (landmark_of lms img) lf) as [Heq|Hne2].
      { exfalso. apply Hk. split; [lia|by right]. }
      done.
Qed.

Lemma apply_filters_eq valid caps lms mn mx lf :
  apply_filters valid caps lms mn mx lf
  = filter (keeps caps lms mn mx lf) valid.
Proof. unfold apply_filters. by rewrite apply_filters_fold. Qed.

Lemma foldl_max_spec (x : nat) (l : list nat) :
  foldl Nat.max x l ∈ x :: l ∧ ∀ y, y ∈ x :: l → y ≤ foldl Nat.max x l.
Proof.
  revert x. induction l as [|z l IH]; intros x; simpl.
  - split; [left|]. by intros y ->%list_elem_of_singleton.
  - destruct (IH (x `max` z)) as [Hin Hle]. split.
    + apply elem_of_cons in Hin as [Heq|Hin]; [|by right; right].
      rewrite Heq. destruct (Nat.max_spec x z) as [[_ ->]|[_ ->]];
        [right; left|left].
    + intros y [->|[->|Hy]%elem_of_cons]%elem_of_cons.
      * etrans; [|apply Hle; left]. lia.
      * etrans; [|apply Hle; left]. lia.
      * apply Hle. by right.
Qed.

Lemma max_or_spec (l : list nat) :
  (l = [] → Py.max_or Nat.max 0 l = 0)
  ∧ (l ≠ [] → Py.max_or Nat.max 0 l ∈ l)
  ∧ (∀ y, y ∈ l → y ≤ Py.max_or Nat.max 0 l).
Proof.
  destruct l as [|x l]; simpl.
  - split_and!; [done|done|]. by intros y ?%elem_of_nil.
  - destruct (foldl_max_spec x l) as [Hin Hle]. done.
Qed.

Lemma landmark_set_fold valid lms (acc : gset string) x :
  x ∈ foldl (λ acc img,
               let lm := landmark_of lms img in
               if Py.is_empty lm then acc else acc ∪ {[lm]}) acc valid
  ↔ x ∈ acc ∨ (x ≠ "" ∧ ∃ img, img ∈ valid ∧ landmark_of lms img = x).
Proof.
  revert acc. induction valid as [|img valid IH]; intros acc; simpl.
  - split; [by left|]. intros [?|(_ & img & []%elem_of_nil & _)]; done.
  - rewrite IH. clear IH.
    destruct (Py.is_empty (landmark_of lms img)) eqn:He.
    + apply is_empty_true in He. split.
      * intros [?|(Hx & i & Hi & Hl)]; [by left|].
        right. split; [done|]. exists i. split; [by right|done].
      * intros [?|(Hx & i & [->|Hi]%elem_of_cons & Hl)]; [by left|..].
        { congruence. }
        right. eauto.
    + apply is_empty_false in He. rewrite elem_of_union, elem_of_singleton.
      split.
      * intros [[?| ->]|(Hx & i & Hi & Hl)]; [by left|..].
        { right. split; [done|]. exists img. split; [left|done]. }
        right. split; [done|]. exists i. split; [by right|done].
      * intros [?|(Hx & i & [->|Hi]%elem_of_cons & Hl)]; [by left; left|..].
        { left. by right. }
        right. eauto.
Qed.

Lemma sorted_elem (l : list string) x : x ∈ sorted l ↔ x ∈ l.
Proof. unfold sorted. by rewrite merge_sort_Permutation. Qed.

Lemma sorted_NoDup (l : list string) : NoDup l → NoDup (sorted l).
Proof. unfold sorted. by rewrite merge_sort_Permutation. Qed.

Lemma sorted_StronglySorted (l : list string) :
  StronglySorted String.le (sorted l).
Proof. unfold sorted. apply StronglySorted_merge_sort; apply _. Qed.

(** Whatever correct sort Python runs, its output is this list. *)
Lemma sorted_unique (l l' : list string) :
  l' ≡ₚ l → StronglySorted String.le l' → l' = sorted l.
Proof.
  intros Hp Hs. apply (StronglySorted_unique String.le); [done|..].
  - apply sorted_StronglySorted.
  - unfold sorted. by rewrite merge_sort_Permutation.
Qed.

(** C6: the filter keeps an image exactly when its caption count lies
    in [[cap_min, cap_max]] and the landmark criterion is Any or equals
    its landmark, and the kept images stay in their input order; with
    bounds 0, 0 and Any it returns the images without captions. *)
Theorem apply_filters_stable valid caps lms (cap_min cap_max : Z)
    (landmark_filter : string) :
  apply_filters valid caps lms cap_min cap_max landmark_filter
  = filter (keeps caps lms cap_min cap_max landmark_filter) valid
  ∧ (∀ img,
       img ∈ apply_filters valid caps lms cap_min cap_max landmark_filter
       ↔ img ∈ valid
         ∧ (cap_min ≤ Z.of_nat (caption_count caps img) ≤ cap_max)%Z
         ∧ (landmark_filter = "Any"
            ∨ landmark_of lms img = landmark_filter))
  ∧ apply_filters valid caps lms cap_min cap_max landmark_filter
      `sublist_of` valid
  ∧ apply_filters valid caps lms 0 0 "Any"
    = filter (λ img, caption_count caps img = 0) valid.
Proof.
  rewrite !apply_filters_eq. split_and!.
  - done.
  - intros img. rewrite list_elem_of_filter. unfold keeps. tauto.
  - apply sublist_filter.
  - apply list_filter_iff. intros img. unfold keeps. split.
    + intros [? _]. lia.
    + intros ->. split; [done|by left].
Qed.

(** C7: the count options are 0, 1, ..., M with M the largest caption
    count among the valid images (M = 0 without images); the landmark
    options are Any followed by the distinct non-empty landmarks of the
    valid images in increasing order. *)
Theorem build_filters_options valid caps lms :
  let '(count_options, landmark_options) := build_filters valid caps lms in
  (∃ M,
     count_options = seq 0 (S M)
     ∧ (∀ n, n ∈ count_options ↔ n ≤ M)
     ∧ (∀ img, img ∈ valid → caption_count caps img ≤ M)
     ∧ (valid = [] → M = 0)
     ∧ (valid ≠ [] → ∃ img, img ∈ valid ∧ caption_count caps img = M))
  ∧ (∃ landmarks,
       landmark_options = "Any" :: landmarks
       ∧ StronglySorted String.le landmarks
       ∧ NoDup landmarks
       ∧ ∀ x, x ∈ landmarks
              ↔ x ≠ "" ∧ ∃ img, img ∈ valid ∧ landmark_of lms img = x)
  ∧ build_filters [] caps lms = ([0], ["Any"]).
Proof.
  unfold build_filters. split_and!.
  - set (counts := map (caption_count caps) valid).
    destruct (max_or_spec counts) as (H0 & Hin & Hle).
    exists (Py.max_or Nat.max 0 counts). split_and!.
    + by rewrite Nat.add_1_r.
    + intros n. rewrite Nat.add_1_r, elem_of_seq. lia.
    + intros img Himg. apply Hle. unfold counts.
      apply list_elem_of_fmap. eauto.
    + intros ->. by apply H0.
    + intros Hne. destruct valid as [|i valid]; [done|].
      specialize (Hin ltac:(done)).
      apply list_elem_of_fmap in Hin as (img & Heq & Himg). eauto.
  - eexists. split; [done|]. split_and!.
    + apply sorted_StronglySorted.
    + apply sorted_NoDup, NoDup_elements.
    + intros x. rewrite sorted_elem, elem_of_elements, landmark_set_fold.
      rewrite elem_of_empty. tauto.
  - done.
Qed.

End filters.

(** ** The annotation store *)

Ltac io_unfold :=
  unfold mbind, mret, io_bind, io_ret, os_path_exists, write_file,
    read_file, os_replace.

Section store.

Implicit Types (fs : gmap string csv_file) (path img : string)
  (df : DataFrame) (rel : list (cell * cell)).

Lemma ensure_csv_run path cols fs :
  ensure_csv path cols fs =
    match fs !! path with
    | Some f => (fs, Returned (read_csv f))
    | None =>
        if entry_name path
        then (<[path := mkCsv cols []]> fs, Returned (mkDataFrame cols []))
        else (fs, Raised)
    end.
Proof.
  unfold ensure_csv. io_unfold.
  destruct (fs !! path) as [f|] eqn:Hf.
  - rewrite bool_decide_eq_true_2 by eauto. simpl. by rewrite Hf.
  - rewrite bool_decide_eq_false_2 by (by intros [? ?]). simpl.
    destruct (entry_name path); [|done]. by rewrite lookup_insert_eq.
Qed.

Lemma ensure_csv_rows path cols fs :
  entry_name path = true →
  ∃ fs' df, ensure_csv path cols fs = (fs', Returned df)
            ∧ rows df = relation path fs
            ∧ relation path fs' = relation path fs
            ∧ ∀ p, p ≠ path → fs' !! p = fs !! p.
Proof.
  intros He. rewrite ensure_csv_run, He. unfold relation.
  destruct (fs !! path) as [f|] eqn:Hf.
  - exists fs, (read_csv f). by rewrite Hf.
  - eexists _, _. split; [done|]. rewrite lookup_insert_eq.
    split_and!; try done. intros p Hp. by rewrite lookup_insert_ne.
Qed.

Lemma save_csv_atomic_run df path fs :
  entry_name path = true → entry_name (path +:+ ".tmp") = true →
  ∃ fs', save_csv_atomic df path fs = (fs', Returned tt)
         ∧ fs' !! path = Some (to_csv df)
         ∧ ∀ p, p ≠ path → p ≠ path +:+ ".tmp" → fs' !! p = fs !! p.
Proof.
  intros He Ht. unfold save_csv_atomic. io_unfold.
  rewrite Ht, He, lookup_insert_eq.
  eexists. split; [done|]. split; [by rewrite lookup_insert_eq|].
  intros p H1 H2. rewrite lookup_insert_ne by done.
  rewrite lookup_delete_ne by done. by rewrite lookup_insert_ne.
Qed.

Lemma tmp_of_ne path : tmp_of path ≠ path.
Proof.
  unfold tmp_of. induction path as [|a path IH]; [done|].
  rewrite sapp_cons. intros [= H]. by apply IH.
Qed.

Lemma save_csv_atomic_eq df path fs :
  entry_name path = true → entry_name (tmp_of path) = true →
  save_csv_atomic df path fs
  = (<[path := to_csv df]> (delete (tmp_of path) fs), Returned tt).
Proof.
  intros He Ht. unfold save_csv_atomic, tmp_of in *. io_unfold.
  rewrite Ht, He, lookup_insert_eq.
  by rewrite delete_insert_eq.
Qed.

Lemma relation_saved df path fs :
  fs !! path = Some (to_csv df) → relation path fs = reload (rows df).
Proof.
  intros Hf. unfold relation, reload. rewrite Hf. simpl.
  rewrite map_map. done.
Qed.

Lemma reparse_parse s : reparse (parse_cell s) = parse_cell s.
Proof.
  unfold reparse, parse_cell. destruct (is_na s) eqn:Hs; simpl; [done|].
  by rewrite Hs.
Qed.


Lemma reparse_text s : reparse (Some s) = parse_cell s.
Proof. done. Qed.

Lemma relation_parsed path fs : parsed (relation path fs).
Proof.
  unfold relation, parsed. destruct (fs !! path) as [f|]; [|constructor].
  simpl. apply Forall_forall. intros r (r0 & -> & _)%list_elem_of_fmap.
  simpl. by rewrite !reparse_parse.
Qed.

Lemma reload_parsed rel : parsed rel → reload rel = rel.
Proof.
  unfold reload. induction 1 as [|[a b] rel [Ha Hb] _ IH]; simpl; [done|].
  simpl in *. by rewrite Ha, Hb, IH.
Qed.











End store.

(** ** Stripping *)

Section stripping.

Implicit Types (s t : string) (c : ascii).





End stripping.

(** ** The handlers *)

Section handlers.

Implicit Types (fs : gmap string csv_file) (img raw : string)
  (rel : list (cell * cell)).



Lemma delete_caption_run img c fs :
  ∃ fs' cols,
    delete_caption img c fs = (fs', Returned tt)
    ∧ fs' !! CAPTIONS_FILE
      = Some (to_csv (mkDataFrame cols
                (filter (λ r, ¬ (r.1 = Some img ∧ r.2 = Some c))
                   (relation CAPTIONS_FILE fs)))).
Proof.
  unfold delete_caption, mbind, io_bind.
  destruct (ensure_csv_rows CAPTIONS_FILE CAPTION_COLS fs eq_refl)
    as (fs1 & df & -> & Hrows & _).
  rewrite <-Hrows.
  destruct (save_csv_atomic_run (mkDataFrame (columns df)
      (filter (λ r, ¬ (r.1 = Some img ∧ r.2 = Some c)) (rows df)))
      CAPTIONS_FILE fs1 eq_refl eq_refl) as (fs' & -> & Hf & _).
  eauto.
Qed.





Lemma captions_map_fold rel (m : gmap string (list string)) img :
  default [] (foldl (λ m r,
                       let img := str_cell r.1 in
                       let cap := text_or_empty r.2 in
                       <[img := default [] (m !! img) ++ [cap]]> m) m rel
              !! img)
  = default [] (m !! img)
    ++ ((λ r, text_or_empty r.2) <$> filter (λ r, str_cell r.1 = img) rel).
Proof.
  revert m. induction rel as [|r rel IH]; intros m; simpl.
  - by rewrite app_nil_r.
  - rewrite IH. clear IH.
    destruct (decide (str_cell r.1 = img)) as [Heq|Hne].
    + rewrite filter_cons_True by done. rewrite Heq, lookup_insert_eq.
      simpl. by rewrite <-app_assoc.
    + rewrite filter_cons_False by done. by rewrite lookup_insert_ne.
Qed.

Lemma captions_map_lookup (df : DataFrame) img :
  default [] (captions_map df !! img)
  = (λ r, text_or_empty r.2) <$> filter (λ r, str_cell r.1 = img) (rows df).
Proof. unfold captions_map. by rewrite captions_map_fold, lookup_empty. Qed.

(** C10: every row of the captions table counts as one caption of its
    image, a row whose caption cell is missing included: the cell
    becomes the empty string and the row stays, so the image has at
    least one caption and the filter for zero captions leaves it out. *)
Theorem blank_caption_counts (df : DataFrame) img :
  default [] (captions_map df !! img)
  = (λ r, text_or_empty r.2) <$> filter (λ r, str_cell r.1 = img) (rows df)
  ∧ caption_count (captions_map df) img
    = length (filter (λ r, str_cell r.1 = img) (rows df))
  ∧ ((Some img, None) ∈ rows df →
     "" ∈ default [] (captions_map df !! img)
     ∧ (1 ≤ caption_count (captions_map df) img)%nat
     ∧ ∀ valid lms, img ∉ apply_filters valid (captions_map df) lms 0 0 "Any")
  ∧ (∀ f, is_na img = false → (img, "") ∈ body f →
          (Some img, None) ∈ rows (read_csv f)).
Proof.
  split_and!.
  - apply captions_map_lookup.
  - unfold caption_count. by rewrite captions_map_lookup, length_fmap.
  - intros Hin.
    assert ((Some img, None) ∈ filter (λ r, str_cell r.1 = img) (rows df))
      as Hf by (by apply list_elem_of_filter).
    assert ("" ∈ default [] (captions_map df !! img)) as Hcap.
    { rewrite captions_map_lookup. apply list_elem_of_fmap.
      by exists (Some img, None). }
    assert (1 ≤ caption_count (captions_map df) img)%nat as Hcnt.
    { unfold caption_count.
      destruct (default [] (captions_map df !! img)); simpl; [|lia].
      by apply elem_of_nil in Hcap. }
    split_and!; [done|done|].
    intros valid lms. rewrite apply_filters_eq, list_elem_of_filter.
    unfold keeps. lia.
  - intros f Hna Hin. simpl. apply list_elem_of_fmap.
    exists (img, ""). split; [|done]. simpl.
    unfold parse_cell. by rewrite Hna.
Qed.

Lemma blank_caption_counts_witness :
  "" ∈ default [] (captions_map
         (read_csv (mkCsv CAPTION_COLS [("a.png", "x"); ("b.png", "")]))
         !! "b.png")
  ∧ (1 ≤ caption_count (captions_map
         (read_csv (mkCsv CAPTION_COLS [("a.png", "x"); ("b.png", "")])))
         "b.png")%nat
  ∧ ∀ valid lms,
      "b.png" ∉ apply_filters valid
        (captions_map
           (read_csv (mkCsv CAPTION_COLS [("a.png", "x"); ("b.png", "")])))
        lms 0 0 "Any".
Proof.
  pose proof (blank_caption_counts
    (read_csv (mkCsv CAPTION_COLS [("a.png", "x"); ("b.png", "")])) "b.png")
    as (_ & _ & H & Hfile).
  apply H. apply Hfile; [by vm_compute|].
  simpl. right. left.
Defined.

End handlers.

(** ** Append, delete and upsert on the relations *)

(** ** Files the reader keeps as text *)

Section kept_files.

Implicit Types (fs : gmap string csv_file) (img raw s : string)
  (rel : list (cell * cell)) (r : cell * cell).













End kept_files.

Section relations.

Local Open Scope nat_scope.

Implicit Types (fs : gmap string csv_file) (img text : string)
  (rel : list (cell * cell)) (v : cell).


Lemma parsed_filter (P : cell * cell → Prop) `{∀ r, Decision (P r)} rel :
  parsed rel → parsed (filter P rel).
Proof.
  unfold parsed. rewrite !Forall_forall. intros Hall r [_ Hr]%list_elem_of_filter.
  by apply Hall.
Qed.

Lemma filter_ne_id (x : cell * cell) rel :
  x ∉ rel → filter (λ r, r ≠ x) rel = rel.
Proof.
  induction rel as [|r rel IH]; [done|].
  intros [Hr Hnot]%not_elem_of_cons.
  rewrite filter_cons_True by done. by rewrite IH.
Qed.


Lemma relation_after_delete fs img c :
  relation CAPTIONS_FILE (delete_caption img c fs).1
  = filter (λ r, r ≠ (Some img, Some c)) (relation CAPTIONS_FILE fs).
Proof.
  destruct (delete_caption_run img c fs) as (fs' & cols & -> & Hf).
  simpl. rewrite (relation_saved _ _ _ Hf). simpl.
  rewrite reload_parsed by apply parsed_filter, relation_parsed.
  apply list_filter_iff. intros [a b]. simpl. split.
  - intros Hn [= -> ->]. by apply Hn.
  - intros Hn [-> ->]. by apply Hn.
Qed.




End relations.

Section upsert.

Local Open Scope nat_scope.

Implicit Types (fs : gmap string csv_file) (img text : string)
  (rel : list (cell * cell)) (v : cell) (r : cell * cell).
















(** The bound on the rows of the image is needed: two rows of one
    image both stay after an upsert. *)
Lemma upsert_keeps_duplicate_rows :
  ¬ upsert_leaves_one_row
      {[ LANDMARKS_FILE
           := mkCsv LANDMARK_COLS [("img1.png", "a"); ("img1.png", "b")] ]}
      "img1.png" "lake".
Proof. unfold upsert_leaves_one_row. by vm_compute. Qed.

End upsert.

(** * Further properties of the code *)

(** ** Saving and loading *)

Section persistence.

Implicit Types (fs : gmap string csv_file) (path img : string)
  (df : DataFrame) (rel : list (cell * cell)) (c : cell).



(** X1: on a path that, like its temporary sibling, names an entry of
    the working directory, saving returns; afterwards the file holds
    the table, the temporary sibling is gone, and no other file has
    changed. *)
Theorem save_replaces_only_target df path fs :
  entry_name path = true → entry_name (tmp_of path) = true →
  ∃ fs',
    save_csv_atomic df path fs = (fs', Returned tt)
    ∧ fs' !! path = Some (to_csv df)
    ∧ fs' !! tmp_of path = None
    ∧ ∀ p, p ≠ path → p ≠ tmp_of path → fs' !! p = fs !! p.
Proof.
  intros He Ht.
  rewrite save_csv_atomic_eq by done. eexists. split; [done|]. split_and!.
  - by rewrite lookup_insert_eq.
  - rewrite lookup_insert_ne by (intros H; by apply (tmp_of_ne path)).
    by rewrite lookup_delete_eq.
  - intros p H1 H2. rewrite lookup_insert_ne by done.
    by rewrite lookup_delete_ne.
Qed.

Lemma save_replaces_only_target_witness :
  ∃ fs',
    save_csv_atomic (mkDataFrame CAPTION_COLS [(Some "a.png", Some "x")])
      CAPTIONS_FILE {[ LANDMARKS_FILE := mkCsv LANDMARK_COLS [] ]}
    = (fs', Returned tt)
    ∧ fs' !! LANDMARKS_FILE = Some (mkCsv LANDMARK_COLS []).
Proof.
  assert (entry_name CAPTIONS_FILE = true) as He by (by vm_compute).
  assert (entry_name (tmp_of CAPTIONS_FILE) = true) as Ht
    by (by vm_compute).
  destruct (save_replaces_only_target
    (mkDataFrame CAPTION_COLS [(Some "a.png", Some "x")])
    CAPTIONS_FILE {[ LANDMARKS_FILE := mkCsv LANDMARK_COLS [] ]} He Ht)
    as (fs' & Hrun & _ & _ & Hother).
  exists fs'. split; [done|].
  rewrite Hother; [by vm_compute|by vm_compute|by vm_compute].
Defined.


(** X3: a second load returns what the first returned and leaves the
    files as the first left them, whatever columns it is given: the
    columns only matter when the file is created. *)
Theorem load_twice path (cols cols' : list string) fs :
  ensure_csv path cols' (ensure_csv path cols fs).1 = ensure_csv path cols fs
  ∧ (is_Some (fs !! path) → (ensure_csv path cols fs).1 = fs)
  ∧ ∀ p, p ≠ path → (ensure_csv path cols fs).1 !! p = fs !! p.
Proof.
  rewrite (ensure_csv_run path cols fs).
  destruct (fs !! path) as [f|] eqn:Hf; simpl.
  - by rewrite ensure_csv_run, Hf.
  - destruct (entry_name path) eqn:He; simpl.
    + rewrite ensure_csv_run, lookup_insert_eq. split_and!; [done|..].
      * by intros [? ?].
      * intros p Hp. by rewrite lookup_insert_ne.
    + rewrite ensure_csv_run, Hf, He. split_and!; [done|..].
      * by intros [? ?].
      * done.
Qed.

End persistence.

(** ** The derived views after each handler *)

Section views.

Local Open Scope nat_scope.

Implicit Types (fs : gmap string csv_file) (path img text : string)
  (df : DataFrame) (rel : list (cell * cell)) (c : cell).

Lemma filter_all_False {A} (P : A → Prop) `{∀ x, Decision (P x)}
    (l : list A) :
  (∀ x, x ∈ l → ¬ P x) → filter P l = [].
Proof.
  induction l as [|x l IH]; [done|]. intros Hall.
  rewrite filter_cons_False by (apply Hall; left).
  apply IH. intros y Hy. apply Hall. by right.
Qed.


Lemma landmarks_map_fold rel (m : gmap string string) img :
  foldl (λ m r,
           let img := str_cell r.1 in
           let lm := text_or_empty r.2 in
           <[img := lm]> m) m rel !! img
  = match last (filter (λ r, str_cell r.1 = img) rel) with
    | Some r => Some (text_or_empty r.2)
    | None => m !! img
    end.
Proof.
  revert m. induction rel as [|r rel IH]; intros m; simpl; [done|].
  rewrite IH. clear IH.
  destruct (decide (str_cell r.1 = img)) as [Heq|Hne].
  - rewrite filter_cons_True by done. rewrite last_cons.
    destruct (last (filter _ rel)); [done|].
    by rewrite Heq, lookup_insert_eq.
  - rewrite filter_cons_False by done.
    destruct (last (filter _ rel)); [done|]. by rewrite lookup_insert_ne.
Qed.

Lemma landmarks_map_lookup df img :
  landmarks_map df !! img
  = (λ r, text_or_empty r.2)
      <$> last (filter (λ r, str_cell r.1 = img) (rows df)).
Proof.
  unfold landmarks_map. rewrite landmarks_map_fold, lookup_empty.
  by destruct (last _).
Qed.

(** X4: the landmark of an image is the landmark cell of the last row
    that carries its name, a missing cell read as the empty text; an
    image without a row has no entry and so the empty landmark. *)
Theorem landmarks_map_last_row df img :
  landmarks_map df !! img
  = (λ r, text_or_empty r.2)
      <$> last (filter (λ r, str_cell r.1 = img) (rows df))
  ∧ (filter (λ r, str_cell r.1 = img) (rows df) = [] →
     landmark_of (landmarks_map df) img = "")
  ∧ ∀ rel1 rel2 v,
      rows df = rel1 ++ (Some img, v) :: rel2 →
      (∀ r, r ∈ rel2 → str_cell r.1 ≠ img) →
      landmark_of (landmarks_map df) img = text_or_empty v.
Proof.
  split_and!.
  - apply landmarks_map_lookup.
  - intros Hnil. unfold landmark_of. by rewrite landmarks_map_lookup, Hnil.
  - intros rel1 rel2 v Hrows Hrest. unfold landmark_of.
    rewrite landmarks_map_lookup, Hrows, filter_app.
    rewrite (filter_cons_True _ (Some img, v)) by done.
    rewrite (filter_all_False _ rel2) by done.
    by rewrite last_snoc.
Qed.

Lemma landmarks_map_last_row_witness :
  landmark_of
    (landmarks_map (mkDataFrame LANDMARK_COLS
       [(Some "a.png", Some "hill"); (Some "b.png", Some "x");
        (Some "a.png", None)])) "a.png"
  = "".
Proof.
  pose proof (landmarks_map_last_row
    (mkDataFrame LANDMARK_COLS
       [(Some "a.png", Some "hill"); (Some "b.png", Some "x");
        (Some "a.png", None)]) "a.png") as (_ & _ & H).
  apply (H [(Some "a.png", Some "hill"); (Some "b.png", Some "x")] [] None).
  - done.
  - by intros r ?%elem_of_nil.
Defined.

End views.

Section handler_views.

Local Open Scope nat_scope.

Implicit Types (fs : gmap string csv_file) (path img text : string)
  (df : DataFrame) (rel : list (cell * cell)) (c : cell).

Lemma captions_view_lookup fs img :
  default [] (captions_view fs !! img)
  = (λ r, text_or_empty r.2)
      <$> filter (λ r, str_cell r.1 = img) (relation CAPTIONS_FILE fs).
Proof. unfold captions_view. by rewrite captions_map_lookup. Qed.







(** X6: deleting a caption whose text is a missing-value token of the
    reader, the empty text shown for a blank caption among them,
    removes nothing: such a row cannot be deleted. *)
Theorem delete_blank_caption_keeps_rows fs img (c : string) :
  is_na c = true →
  relation CAPTIONS_FILE (delete_caption img c fs).1
  = relation CAPTIONS_FILE fs
  ∧ captions_view (delete_caption img c fs).1 = captions_view fs
  ∧ relation CAPTIONS_FILE (delete_caption img "" fs).1
    = relation CAPTIONS_FILE fs.
Proof.
  assert (∀ t : string, is_na t = true →
            relation CAPTIONS_FILE (delete_caption img t fs).1
            = relation CAPTIONS_FILE fs) as Hgen.
  { intros t Hc. rewrite relation_after_delete. apply filter_ne_id.
    intros Hin. pose proof (relation_parsed CAPTIONS_FILE fs) as Hp.
    unfold parsed in Hp. rewrite Forall_forall in Hp.
    destruct (Hp _ Hin) as [_ H2]. simpl in H2.
    unfold reparse, parse_cell in H2. simpl in H2. by rewrite Hc in H2. }
  intros Hc. split_and!.
  - by apply Hgen.
  - unfold captions_view. by rewrite Hgen.
  - by apply Hgen.
Qed.

Lemma delete_blank_caption_keeps_rows_witness :
  relation CAPTIONS_FILE
    (delete_caption "a.png" ""
       {[ CAPTIONS_FILE := mkCsv CAPTION_COLS [("a.png", "")] ]}).1
  = relation CAPTIONS_FILE
      {[ CAPTIONS_FILE := mkCsv CAPTION_COLS [("a.png", "")] ]}.
Proof.
  pose proof (delete_blank_caption_keeps_rows
    {[ CAPTIONS_FILE := mkCsv CAPTION_COLS [("a.png", "")] ]}
    "a.png" "" ltac:(by vm_compute)) as (H & _).
  exact H.
Defined.




End handler_views.

Section landmark_views.

Local Open Scope nat_scope.

Implicit Types (fs : gmap string csv_file) (path img text : string)
  (df : DataFrame) (rel : list (cell * cell)) (v : cell).








End landmark_views.

(** ** More on the filter engine *)

Section filter_facts.

Local Open Scope nat_scope.

Implicit Types (valid : list string) (caps : gmap string (list string))
  (lms : gmap string string) (img : string).

Lemma filter_all_True {A} (P : A → Prop) `{∀ x, Decision (P x)}
    (l : list A) :
  (∀ x, x ∈ l → P x) → filter P l = l.
Proof.
  induction l as [|x l IH]; [done|]. intros Hall.
  rewrite filter_cons_True by (apply Hall; left).
  f_equal. apply IH. intros y Hy. apply Hall. by right.
Qed.

(** X10: with the first and the last count option as bounds and Any as
    landmark the filter hides nothing. *)
Theorem full_range_shows_all valid caps lms :
  let '(count_options, landmark_options) := build_filters valid caps lms in
  ∃ M,
    head count_options = Some 0
    ∧ last count_options = Some M
    ∧ head landmark_options = Some "Any"
    ∧ apply_filters valid caps lms 0 (Z.of_nat M) "Any" = valid.
Proof.
  unfold build_filters.
  set (counts := map (caption_count caps) valid).
  destruct (max_or_spec counts) as (_ & _ & Hle).
  exists (Py.max_or Nat.max 0 counts). split_and!.
  - by rewrite Nat.add_1_r.
  - rewrite Nat.add_1_r, seq_S, last_snoc. done.
  - done.
  - rewrite apply_filters_eq. apply filter_all_True. intros img Himg.
    unfold keeps. split; [|by left].
    assert (caption_count caps img ≤ Py.max_or Nat.max 0 counts).
    { apply Hle. unfold counts. apply list_elem_of_fmap. eauto. }
    lia.
Qed.

(** X11: every landmark option other than Any is the non-empty
    landmark of some valid image: with the full count range it selects
    exactly the images that carry it, at least one. *)
Theorem landmark_option_selects valid caps lms (x : string) :
  x ∈ (build_filters valid caps lms).2 → x ≠ "Any" →
  x ≠ ""
  ∧ (∀ cap_min cap_max,
       apply_filters valid caps lms cap_min cap_max x
       = filter (λ img,
                   (cap_min ≤ Z.of_nat (caption_count caps img) ≤ cap_max)%Z
                   ∧ landmark_of lms img = x) valid)
  ∧ ∃ img, img ∈ valid ∧ landmark_of lms img = x
           ∧ ∀ cap_max,
               (Z.of_nat (caption_count caps img) ≤ cap_max)%Z →
               img ∈ apply_filters valid caps lms 0 cap_max x.
Proof.
  unfold build_filters. simpl. intros Hx Hany.
  apply elem_of_cons in Hx as [?|Hx]; [done|].
  rewrite sorted_elem, elem_of_elements, landmark_set_fold in Hx.
  destruct Hx as [[]%elem_of_empty|(Hne & img & Himg & Hlm)].
  split_and!.
  - done.
  - intros mn mx. rewrite apply_filters_eq. apply list_filter_iff.
    intros i. unfold keeps. split; [|tauto].
    intros [H1 [H2|H2]]; [done|tauto].
  - exists img. split_and!; [done|done|].
    intros mx Hmx. rewrite apply_filters_eq, list_elem_of_filter.
    split; [|done]. unfold keeps. split; [lia|by right].
Qed.

Lemma landmark_option_selects_witness :
  "lake" ≠ ""
  ∧ ∃ img, img ∈ ["a.png"; "b.png"]
           ∧ landmark_of {[ "b.png" := "lake" ]} img = "lake"
           ∧ ∀ cap_max,
               (Z.of_nat (caption_count ∅ img) ≤ cap_max)%Z →
               img ∈ apply_filters ["a.png"; "b.png"] ∅
                       {[ "b.png" := "lake" ]} 0 cap_max "lake".
Proof.
  destruct (landmark_option_selects ["a.png"; "b.png"] ∅
              {[ "b.png" := "lake" ]} "lake") as (H1 & _ & H2).
  - vm_compute. right. left.
  - done.
  - done.
Defined.

(** X12: an empty range selects nothing, raising no error; filtering a
    filtered list again with the same criteria changes nothing;
    narrowing the range keeps a sublist; a list without repeated names
    stays without repeated names. *)
Theorem apply_filters_ranges valid caps lms (cap_min cap_max : Z)
    (landmark_filter : string) :
  ((cap_max < cap_min)%Z →
     apply_filters valid caps lms cap_min cap_max landmark_filter = [])
  ∧ apply_filters
      (apply_filters valid caps lms cap_min cap_max landmark_filter)
      caps lms cap_min cap_max landmark_filter
    = apply_filters valid caps lms cap_min cap_max landmark_filter
  ∧ (∀ cap_min' cap_max',
       (cap_min ≤ cap_min')%Z → (cap_max' ≤ cap_max)%Z →
       apply_filters valid caps lms cap_min' cap_max' landmark_filter
         `sublist_of`
         apply_filters valid caps lms cap_min cap_max landmark_filter)
  ∧ (NoDup valid →
     NoDup (apply_filters valid caps lms cap_min cap_max landmark_filter)).
Proof.
  rewrite !apply_filters_eq. split_and!.
  - intros Hlt. apply filter_all_False. intros img _ [? _]. lia.
  - apply filter_all_True. by intros img [? _]%list_elem_of_filter.
  - intros mn mx H1 H2. rewrite !apply_filters_eq.
    assert (filter (keeps caps lms mn mx landmark_filter) valid
            = filter (keeps caps lms mn mx landmark_filter)
                (filter (keeps caps lms cap_min cap_max landmark_filter)
                   valid)) as ->; [|apply sublist_filter].
    rewrite list_filter_filter. apply list_filter_iff. intros img.
    unfold keeps. split; [|tauto]. intros [[? ?] ?].
    split; (split; [lia|done]).
  - apply NoDup_filter.
Qed.

Lemma apply_filters_ranges_witness :
  apply_filters ["a.png"; "b.png"] ∅ ∅ 3 1 "Any" = [].
Proof.
  pose proof (apply_filters_ranges ["a.png"; "b.png"] ∅ ∅ 3 1 "Any")
    as (H & _).
  apply H. lia.
Defined.

End filter_facts.

(** ** Classification does not depend on the listing order *)

Section classifier_facts.

Implicit Types (s t f : string) (c : ascii) (l listing : list string).

Lemma sorted_Permutation l1 l2 : l1 ≡ₚ l2 → sorted l1 = sorted l2.
Proof.
  intros Hp. apply sorted_unique; [|apply sorted_StronglySorted].
  unfold sorted. by rewrite merge_sort_Permutation.
Qed.

Lemma list_images_fixed listing : list_images (list_images listing) = list_images listing.
Proof.
  unfold list_images at 1. symmetry. apply sorted_unique.
  - rewrite filter_all_True; [done|].
    by intros f [? _]%list_images_elem.
  - apply list_images_sorted.
Qed.

(** X13: the classification is the same for every order in which the
    directory is listed, running it again on its own [all] returns the
    same three lists, and a listing without repeated names gives lists
    without repeated names. *)
Theorem classify_order_independent listing1 listing2 (shortname : string) :
  (listing1 ≡ₚ listing2 →
   validate_images listing1 shortname = validate_images listing2 shortname)
  ∧ validate_images (validate_images listing1 shortname).2 shortname
    = validate_images listing1 shortname
  ∧ (NoDup listing1 →
     NoDup (validate_images listing1 shortname).2
     ∧ NoDup (validate_images listing1 shortname).1.1
     ∧ NoDup (validate_images listing1 shortname).1.2).
Proof.
  split_and!.
  - intros Hp. rewrite !validate_images_eq.
    assert (list_images listing1 = list_images listing2) as ->; [|done].
    unfold list_images. apply sorted_Permutation. by rewrite Hp.
  - rewrite (validate_images_eq listing1). cbn [fst snd].
    rewrite validate_images_eq. by rewrite list_images_fixed.
  - intros Hnd. rewrite validate_images_eq. cbn [fst snd].
    assert (NoDup (list_images listing1)) as Hall.
    { rewrite list_images_perm. by apply NoDup_filter. }
    split_and!; [done|by apply NoDup_filter..].
Qed.

Lemma classify_order_independent_witness :
  validate_images ["b.png"; "image_a_1.png"; "a.txt"] "a"
  = validate_images ["a.txt"; "image_a_1.png"; "b.png"] "a".
Proof.
  pose proof (classify_order_independent
    ["b.png"; "image_a_1.png"; "a.txt"] ["a.txt"; "image_a_1.png"; "b.png"]
    "a") as (H & _).
  apply H. apply (Permutation_rev ["b.png"; "image_a_1.png"; "a.txt"]).
Defined.

End classifier_facts.

(** ** Serial numbers as text *)

Section serial_text.

Implicit Types (s t f g : string) (c : ascii) (n : N).

Lemma int_go_of_uint_acc (d : Decimal.uint) (acc : positive) :
  Py.int_go (N.pos acc) (NilEmpty.string_of_uint d)
  = N.pos (Pos.of_uint_acc d acc).
Proof.
  revert acc. induction d; intros acc; cbn [NilEmpty.string_of_uint
    Py.int_go Pos.of_uint_acc]; [done|rewrite <-IHd; f_equal..].
  all: match goal with
       | |- context [Py.digit_val ?c] =>
           let v := eval vm_compute in (Py.digit_val c) in
           change (Py.digit_val c) with v
       end; lia.
Qed.

Lemma int_string_of_uint (d : Decimal.uint) :
  Py.int (NilEmpty.string_of_uint d) = Pos.of_uint d.
Proof.
  unfold Py.int. induction d; cbn [NilEmpty.string_of_uint Py.int_go
    Pos.of_uint]; [done|exact IHd|apply (int_go_of_uint_acc d)..].
Qed.

Lemma digits_string_of_uint (d : Decimal.uint) :
  Py.all_in Py.is_digit (NilEmpty.string_of_uint d) = true.
Proof. induction d; simpl; [done|exact IHd..]. Qed.

Lemma str_int_digits n :
  Py.str_int n ≠ "" ∧ Py.all_in Py.is_digit (Py.str_int n) = true.
Proof.
  unfold Py.str_int, NilZero.string_of_uint.
  destruct (N.to_uint n) eqn:E; (split; [done|]);
    try apply (digits_string_of_uint (_ u)). done.
Qed.

Lemma int_str_int n : Py.int (Py.str_int n) = n.
Proof.
  unfold Py.str_int, NilZero.string_of_uint.
  pose proof (DecimalN.Unsigned.of_to n) as Hn.
  destruct (N.to_uint n) eqn:E; [by rewrite <-Hn|..];
    rewrite int_string_of_uint; exact Hn.
Qed.

Lemma str_int_inj n m : Py.str_int n = Py.str_int m → n = m.
Proof. intros H. by rewrite <-(int_str_int n), H, int_str_int. Qed.

End serial_text.

(** ** Serials of canonical names *)

Section serial_facts.

Implicit Types (s t f g d e q : string) (c : ascii) (n : N).

Lemma no_dot_cons c s : no_dot (String c s) ↔ c ≠ "."%char ∧ no_dot s.
Proof.
  unfold no_dot. simpl. rewrite andb_true_iff, negb_true_iff.
  by rewrite Ascii.eqb_neq.
Qed.

Lemma no_dot_app s t : no_dot (s +:+ t) ↔ no_dot s ∧ no_dot t.
Proof.
  induction s as [|c s IH].
  - rewrite sapp_empty_l. unfold no_dot at 2. simpl. tauto.
  - rewrite sapp_cons, !no_dot_cons, IH. tauto.
Qed.

Lemma digits_no_dot d : Py.all_in Py.is_digit d = true → no_dot d.
Proof.
  induction d as [|c d IH]; [done|]. simpl.
  intros [Hc Hd]%andb_prop. apply no_dot_cons. split; [|auto].
  intros ->. by vm_compute in Hc.
Qed.

Lemma span_then_dot q tail :
  no_dot q →
  Py.strip_prefix "." (Py.span Py.is_digit (q +:+ "_" +:+ tail)).2 = None.
Proof.
  induction q as [|c q IH]; [done|].
  intros [Hc Hq]%no_dot_cons. rewrite sapp_cons. cbn [Py.span].
  destruct (Py.is_digit c).
  - specialize (IH Hq). by destruct (Py.span Py.is_digit _).
  - cbn [snd Py.strip_prefix]. by destruct (Ascii.eqb_spec "." c) as [<-|].
Qed.

Lemma match_here_serial_no_dot pos0 c q tail :
  no_dot q →
  Re.match_here serial_re pos0 "" (String c q +:+ "_" +:+ tail) = None.
Proof.
  intros Hq. rewrite match_here_serial, sapp_cons. cbn [Py.strip_prefix].
  destruct (Ascii.eqb "_" c); [bind_some|reflexivity]. cbn zeta.
  destruct (Py.is_empty _); [done|].
  pose proof (span_then_dot q tail Hq) as H. cbn [Py.strip_prefix] in H.
  by rewrite H.
Qed.

Lemma search_after_no_dot pos0 q d e :
  no_dot q → d ≠ "" → Py.all_in Py.is_digit d = true →
  Re.search_from serial_re pos0 (q +:+ "_" +:+ d +:+ "." +:+ e) = Some d.
Proof.
  intros Hq Hne Hd. revert pos0.
  induction q as [|c q IH]; intros pos0.
  - rewrite sapp_empty_l.
    assert (Re.match_here serial_re pos0 "" ("_" +:+ d +:+ "." +:+ e)
            = Some d) as Hm.
    { apply match_here_serial_iff. exists e. by split_and!. }
    change ("_" +:+ d +:+ "." +:+ e) with (String "_" (d +:+ "." +:+ e)) in *.
    cbn [Re.search_from]. by rewrite Hm.
  - apply no_dot_cons in Hq as [Hc Hq].
    rewrite sapp_cons. cbn [Re.search_from].
    rewrite <-sapp_cons, match_here_serial_no_dot by done.
    rewrite sapp_cons. by apply IH.
Qed.

(** X14: when the short name holds no dot, the serial read from a
    canonical name is the number its digit group spells, and the serial
    read from a name the renamer has built is the serial it was built
    with. *)
Theorem canonical_name_serial (shortname : string) :
  no_dot shortname →
  (∀ d e, d ≠ "" → Py.all_in Py.is_digit d = true →
     serial ("image_" +:+ shortname +:+ "_" +:+ d +:+ "." +:+ e)
     = Some (Py.int d))
  ∧ (∀ n, Py.int (Py.str_int n) = n)
  ∧ (∀ n fname x, Py.splitext_ext fname = "." +:+ x →
       serial (new_name_for shortname n fname) = Some n).
Proof.
  intros Hs.
  assert (∀ d e, d ≠ "" → Py.all_in Py.is_digit d = true →
            serial ("image_" +:+ shortname +:+ "_" +:+ d +:+ "." +:+ e)
            = Some (Py.int d)) as H.
  { intros d e Hne Hd. unfold serial, Re.re_search.
    rewrite <-sapp_assoc.
    by rewrite (search_after_no_dot _ ("image_" +:+ shortname)). }
  split_and!; [done|apply int_str_int|].
  intros n fname x Hx. unfold new_name_for. rewrite Hx.
  destruct (str_int_digits n) as [Hne Hd].
  rewrite H by done. by rewrite int_str_int.
Qed.

Lemma canonical_name_serial_witness :
  serial ("image_" +:+ "a_b" +:+ "_" +:+ "007" +:+ "." +:+ "png") = Some 7.
Proof.
  pose proof (canonical_name_serial "a_b" ltac:(by vm_compute)) as (H & _).
  rewrite H; by vm_compute.
Defined.

Lemma foldr_max_const (x : N) (l : list N) :
  l ≠ [] → (∀ y, y ∈ l → y = x) → foldr N.max 0 l = x.
Proof.
  induction l as [|y l IH]; [done|]. intros _ Hall. simpl.
  rewrite (Hall y) by left. destruct l as [|z l]; [simpl; lia|].
  rewrite IH; [lia|done|]. intros w Hw. apply Hall. by right.
Qed.

(** X15: when the short name begins with digits and a dot, the serial
    read from every name of that short name is the number these digits
    spell, whatever serial the name carries; the highest serial of the
    valid images is then that number and no longer tells which serials
    are taken. *)
Theorem dotted_shortname_hides_serials (g rest : string)
    (listing : list string) :
  g ≠ "" → Py.all_in Py.is_digit g = true →
  let shortname := g +:+ "." +:+ rest in
  (∀ tail, serial ("image_" +:+ shortname +:+ tail) = Some (Py.int g))
  ∧ (∀ f, f ∈ (validate_images listing shortname).1.1 →
          serial f = Some (Py.int g))
  ∧ ((validate_images listing shortname).1.1 ≠ [] →
     highest_serial (validate_images listing shortname).1.1 = Py.int g).
Proof.
  intros Hne Hd shortname.
  assert (∀ tail, serial ("image_" +:+ shortname +:+ tail) = Some (Py.int g))
    as Htail.
  { intros tail. unfold serial, Re.re_search, shortname.
    change ("image_" +:+ (g +:+ "." +:+ rest) +:+ tail)
      with ("image" +:+ "_" +:+ (g +:+ "." +:+ rest) +:+ tail).
    rewrite !sapp_assoc.
    rewrite (search_after_no_dot _ "image"); by try done. }
  assert (∀ f, f ∈ (validate_images listing shortname).1.1 →
            serial f = Some (Py.int g)) as Hvalid.
  { intros f. rewrite validate_images_eq. cbn [fst].
    intros [[d Hm] _]%list_elem_of_filter.
    apply re_match_pattern_iff in Hm as (ext & tail & -> & _).
    apply Htail. }
  split_and!; [done|done|].
  intros Hnil. rewrite highest_serial_eq.
  apply foldr_max_const.
  - destruct (validate_images listing shortname).1.1 as [|f l] eqn:E;
      [done|]. simpl. rewrite (Hvalid f) by left. done.
  - intros y (f & Hf & Hy)%list_elem_of_omap.
    rewrite (Hvalid f Hf) in Hy. by injection Hy.
Qed.

Lemma dotted_shortname_hides_serials_witness :
  highest_serial
    (validate_images ["image_2.0_7.png"; "image_2.0_9.png"] "2.0").1.1
  = 2.
Proof.
  pose proof (dotted_shortname_hides_serials "2" "0"
    ["image_2.0_7.png"; "image_2.0_9.png"]
    ltac:(done) ltac:(by vm_compute)) as (_ & _ & H).
  apply H. by vm_compute.
Defined.

End serial_facts.

(** ** Extensions of listed names *)

Section extensions.

Implicit Types (s t f x y stem : string) (c : ascii) (n : N).

Lemma lower_char_dot c : Py.lower_char c = "."%char → c = "."%char.
Proof. destruct c as [[] [] [] [] [] [] [] []]; by vm_compute. Qed.

Lemma lower_char_letter c :
  Py.between 97 122 (Py.lower_char c) = true →
  Py.is_alnum c = true ∧ c ≠ "."%char.
Proof. destruct c as [[] [] [] [] [] [] [] []]; by vm_compute. Qed.

Lemma lower_char_digit c : Py.is_digit c = true → Py.lower_char c = c.
Proof. destruct c as [[] [] [] [] [] [] [] []]; by vm_compute. Qed.

Lemma lower_letters x y :
  Py.lower x = y → Py.all_in (Py.between 97 122) y = true →
  Py.all_in Py.is_alnum x = true ∧ no_dot x.
Proof.
  revert y. induction x as [|c x IH]; intros y <-; [done|]. simpl.
  intros [Hc Hx]%andb_prop. apply lower_char_letter in Hc as [Hc Hd].
  destruct (IH _ eq_refl Hx) as [Ha Hn]. rewrite Hc, Ha.
  split; [done|]. by apply no_dot_cons.
Qed.

Lemma lower_digits s : Py.all_in Py.is_digit s = true → Py.lower s = s.
Proof.
  induction s as [|c s IH]; [done|]. simpl. intros [Hc Hs]%andb_prop.
  by rewrite (lower_char_digit _ Hc), IH.
Qed.

Lemma endswith_split s suf : Py.endswith s suf = true → ∃ stem, s = stem +:+ suf.
Proof.
  induction s as [|c s IH].
  - cbn [Py.endswith]. rewrite orb_false_r. intros <-%String.eqb_eq.
    by exists "".
  - rewrite endswith_cons. intros [H|H]%orb_prop.
    + apply String.eqb_eq in H as <-. by exists "".
    + destruct (IH H) as [stem ->]. by exists (String c stem).
Qed.

Lemma lower_split f s t :
  Py.lower f = s +:+ t →
  ∃ fs ft, f = fs +:+ ft ∧ Py.lower fs = s ∧ Py.lower ft = t.
Proof.
  revert f. induction s as [|c s IH]; intros f.
  - rewrite sapp_empty_l. intros H. by exists "", f.
  - destruct f as [|b f]; [done|]. cbn [Py.lower]. rewrite sapp_cons.
    intros [= Hb Hf]. destruct (IH f Hf) as (fs & ft & -> & <- & <-).
    exists (String b fs), ft. by rewrite <-Hb.
Qed.

Lemma img_ext_shape e :
  e ∈ IMG_EXTS →
  ∃ y, e = "." +:+ y ∧ y ≠ "" ∧ Py.all_in (Py.between 97 122) y = true.
Proof.
  unfold IMG_EXTS. intros He.
  repeat (apply elem_of_cons in He as [->|He]; [eexists; by split_and!|]).
  by apply elem_of_nil in He.
Qed.

(** A listed name ends in a dot and a non-empty alphanumeric token, and
    every name with that ending is listed. *)
Lemma listed_split f :
  listed f →
  ∃ stem x,
    f = stem +:+ "." +:+ x
    ∧ x ≠ "" ∧ Py.all_in Py.is_alnum x = true ∧ no_dot x
    ∧ ∀ stem', listed (stem' +:+ "." +:+ x).
Proof.
  unfold listed, Py.endswith_any. intros H.
  apply existsb_exists in H as (e & He & Hend).
  pose proof He as He'. apply list_elem_of_In, img_ext_shape in He'
    as (y & -> & Hy & Hlow).
  apply endswith_split in Hend as [stem' Hf].
  apply lower_split in Hf as (fs & ft & -> & _ & Hft).
  destruct ft as [|c x]; [done|]. cbn [Py.lower] in Hft.
  change ("." +:+ y) with (String "." y) in Hft. injection Hft as Hc Hx.
  apply lower_char_dot in Hc as ->.
  destruct (lower_letters _ _ Hx Hlow) as [Ha Hn].
  exists fs, x. split_and!; try done.
  - intros ->. by subst y.
  - intros s. apply existsb_exists. exists ("." +:+ y). split; [done|].
    rewrite !lower_app. change (Py.lower ".") with ".". rewrite Hx.
    apply endswith_app.
Qed.

Lemma last_dot_ext_none x : no_dot x → Py.last_dot_ext x = None.
Proof.
  induction x as [|c x IH]; [done|]. intros [Hc Hx]%no_dot_cons.
  simpl. rewrite (IH Hx). by destruct (Ascii.eqb_spec c ".").
Qed.

Lemma last_dot_ext_app s x :
  no_dot x → Py.last_dot_ext (s +:+ "." +:+ x) = Some ("." +:+ x).
Proof.
  intros Hx. induction s as [|c s IH].
  - rewrite sapp_empty_l. change ("." +:+ x) with (String "." x).
    cbn [Py.last_dot_ext]. by rewrite (last_dot_ext_none _ Hx).
  - rewrite sapp_cons. cbn [Py.last_dot_ext]. by rewrite IH.
Qed.

Lemma lstrip_dots_cons c s :
  Py.lstrip_dots (String c s)
  = if Ascii.eqb c "." then Py.lstrip_dots s else String c s.
Proof.
  destruct (Ascii.eqb_spec c ".") as [->|Hne]; [done|].
  destruct c as [[] [] [] [] [] [] [] []]; done.
Qed.

Lemma lstrip_dots_no_dot x : no_dot x → Py.lstrip_dots x = x.
Proof.
  destruct x as [|c x]; [done|]. intros [Hc _]%no_dot_cons.
  rewrite lstrip_dots_cons. by destruct (Ascii.eqb_spec c ".").
Qed.

(** The extension of [stem.x]: none when the stem is dots only. *)
Lemma splitext_ext_stem stem x :
  no_dot x →
  Py.splitext_ext (stem +:+ "." +:+ x)
  = if all_dots stem then "" else "." +:+ x.
Proof.
  intros Hx. unfold Py.splitext_ext, all_dots.
  induction stem as [|c stem IH].
  - rewrite sapp_empty_l. change ("." +:+ x) with (String "." x).
    rewrite lstrip_dots_cons. simpl.
    by rewrite (lstrip_dots_no_dot _ Hx), (last_dot_ext_none _ Hx).
  - rewrite sapp_cons, lstrip_dots_cons. cbn [Py.all_in].
    destruct (Ascii.eqb c "."); [exact IH|]. simpl andb.
    rewrite <-sapp_cons. by rewrite (last_dot_ext_app _ _ Hx).
Qed.

Lemma listed_splitext f :
  listed f → Py.splitext_ext f ≠ "" →
  ∃ x, Py.splitext_ext f = "." +:+ x
       ∧ x ≠ "" ∧ Py.all_in Py.is_alnum x = true
       ∧ ∀ stem', listed (stem' +:+ "." +:+ x).
Proof.
  intros (stem & x & -> & Hne & Ha & Hn & Hl)%listed_split.
  rewrite (splitext_ext_stem _ _ Hn). destruct (all_dots stem); [done|].
  intros _. by exists x.
Qed.

Lemma new_name_canonical (shortname : string) n f :
  listed f → Py.splitext_ext f ≠ "" →
  canonical shortname (new_name_for shortname n f)
  ∧ listed (new_name_for shortname n f).
Proof.
  intros Hl He.
  destruct (listed_splitext f Hl He) as (x & Hx & Hne & Ha & Hlisted).
  destruct (str_int_digits n) as [Hd1 Hd2].
  unfold new_name_for. rewrite Hx. split.
  - by exists (Py.str_int n), x.
  - replace ("image_" +:+ shortname +:+ "_" +:+ Py.str_int n +:+ "." +:+ x)
      with (("image_" +:+ shortname +:+ "_" +:+ Py.str_int n) +:+ "." +:+ x)
      by (by rewrite !sapp_assoc).
    apply Hlisted.
Qed.

(** X16: an invalid image whose name has an extension is renamed to a
    canonical name that keeps this extension: the next scan lists the
    new name and classifies it valid. *)
Theorem renamed_name_is_valid (shortname : string) n f :
  listed f → Py.splitext_ext f ≠ "" →
  canonical shortname (new_name_for shortname n f)
  ∧ listed (new_name_for shortname n f)
  ∧ matched shortname (new_name_for shortname n f)
  ∧ (∀ listing,
       new_name_for shortname n f ∈ listing →
       new_name_for shortname n f ∈ (validate_images listing shortname).1.1).
Proof.
  intros Hl He. destruct (new_name_canonical shortname n f Hl He) as [Hc Hn].
  assert (matched shortname (new_name_for shortname n f)) as Hm
    by (by apply listed_matched_canonical).
  split_and!; [done..|].
  intros listing Hin. rewrite validate_images_eq. cbn [fst].
  apply list_elem_of_filter. split; [done|].
  by apply list_images_elem.
Qed.

Lemma renamed_name_is_valid_witness :
  new_name_for "a" 4 "holiday.photo.JPG"
    ∈ (validate_images [new_name_for "a" 4 "holiday.photo.JPG"] "a").1.1.
Proof.
  pose proof (renamed_name_is_valid "a" 4 "holiday.photo.JPG"
    ltac:(by vm_compute) ltac:(by vm_compute)) as (_ & _ & _ & H).
  apply H. left.
Defined.

Lemma ends_in_app cls s t : t ≠ "" → ends_in cls (s +:+ t) = ends_in cls t.
Proof.
  intros Ht. induction s as [|c s IH]; [done|]. rewrite sapp_cons.
  cbn [ends_in]. destruct (s +:+ t) eqn:E; [|done].
  by apply sapp_eq_empty in E as [_ ->].
Qed.

Lemma ends_in_all cls s : s ≠ "" → Py.all_in cls s = true → ends_in cls s = true.
Proof.
  induction s as [|c s IH]; [done|]. intros _ [Hc Hs]%andb_prop.
  destruct s as [|b s]; [done|]. by apply IH.
Qed.

(** X17: a listed image whose name is dots followed by the extension
    token, such as [.png], has no extension for the renamer: it is
    renamed to a name without extension, which the next scan does not
    list. *)
Theorem dot_name_leaves_listing (shortname : string) n f :
  listed f → Py.splitext_ext f = "" →
  (∃ dots x, f = dots +:+ "." +:+ x ∧ all_dots dots = true ∧ no_dot x)
  ∧ new_name_for shortname n f
    = "image_" +:+ shortname +:+ "_" +:+ Py.str_int n
  ∧ ¬ listed (new_name_for shortname n f).
Proof.
  intros Hl He. split_and!.
  - apply listed_split in Hl as (stem & x & -> & _ & _ & Hn & _).
    rewrite (splitext_ext_stem _ _ Hn) in He.
    destruct (all_dots stem) eqn:Hd; [|done]. by exists stem, x.
  - unfold new_name_for. by rewrite He, sapp_empty_r.
  - unfold new_name_for. rewrite He, sapp_empty_r.
    destruct (str_int_digits n) as [Hd1 Hd2].
    unfold listed, Py.endswith_any. intros H.
    apply existsb_exists in H as (e & Hin & Hend).
    apply endswith_split in Hend as [stem Hs].
    assert (ends_in Py.is_digit
              (Py.lower ("image_" +:+ shortname +:+ "_" +:+ Py.str_int n))
            = true) as Hdig.
    { replace ("image_" +:+ shortname +:+ "_" +:+ Py.str_int n)
        with (("image_" +:+ shortname +:+ "_") +:+ Py.str_int n)
        by (by rewrite !sapp_assoc).
      rewrite lower_app, (lower_digits _ Hd2).
      rewrite ends_in_app by done. by apply ends_in_all. }
    rewrite Hs in Hdig. unfold IMG_EXTS in Hin. simpl in Hin.
    destruct Hin as [<-|[<-|[<-|[<-|[<-|[<-|[]]]]]]];
      rewrite ends_in_app in Hdig by done; by vm_compute in Hdig.
Qed.

Lemma dot_name_leaves_listing_witness :
  new_name_for "a" 4 ".png" = "image_a_4"
  ∧ ¬ listed (new_name_for "a" 4 ".png").
Proof.
  pose proof (dot_name_leaves_listing "a" 4 ".png"
    ltac:(by vm_compute) ltac:(by vm_compute)) as (_ & H1 & H2).
  split; [|done]. rewrite H1. by vm_compute.
Defined.

End extensions.

(** ** Renaming the invalid images of a scan *)

Section rename_safety.

Implicit Types (s t f g : string) (fs : gmap string inode)
  (pairs : list (string * string)).

(** A batch of renames from present, distinct names to absent, distinct
    names of entries moves every file and touches nothing else. *)
Lemma rename_batch pairs fs :
  NoDup pairs.*1 → NoDup pairs.*2 →
  (∀ o, o ∈ pairs.*1 → is_Some (fs !! o)) →
  (∀ n, n ∈ pairs.*2 → fs !! n = None) →
  (∀ n, n ∈ pairs.*2 → entry_name n = true) →
  (∀ o n, (o, n) ∈ pairs →
     foldl apply_rename fs pairs !! n = fs !! o
     ∧ foldl apply_rename fs pairs !! o = None)
  ∧ (∀ g, g ∉ pairs.*1 → g ∉ pairs.*2 →
       foldl apply_rename fs pairs !! g = fs !! g).
Proof.
  revert fs.
  induction pairs as [|[o n] pairs IH]; intros fs Ho Hn Hin Hout Hname.
  { split; [|done]. intros o n H. by apply elem_of_nil in H. }
  rewrite !fmap_cons in *. cbn [fst snd] in *.
  apply NoDup_cons in Ho as [Ho1 Ho]. apply NoDup_cons in Hn as [Hn1 Hn].
  destruct (Hin o) as [i Hi]; [left|].
  assert (fs !! n = None) as Hnone by (apply Hout; left).
  assert (o ≠ n) as Hon by (intros ->; congruence).
  assert (apply_rename fs (o, n) = <[n:=i]> (delete o fs)) as Hstep.
  { apply apply_rename_moves; [done|]. apply Hname. left. }
  cbn [foldl]. rewrite Hstep.
  set (fs1 := <[n:=i]> (delete o fs)).
  assert (n ∉ pairs.*1) as Hn_old.
  { intros H. destruct (Hin n) as [? ?]; [by right|congruence]. }
  assert (o ∉ pairs.*2) as Ho_new.
  { intros H. rewrite (Hout o) in Hi; [done|by right]. }
  assert (∀ g, g ≠ o → g ≠ n → fs1 !! g = fs !! g) as Hother.
  { intros g Hgo Hgn. unfold fs1.
    by rewrite lookup_insert_ne, lookup_delete_ne. }
  destruct (IH fs1 Ho Hn) as [IH1 IH2].
  { intros o' Ho'. rewrite Hother; [apply Hin; by right|..];
      intros ->; done. }
  { intros n' Hn'. unfold fs1.
    rewrite lookup_insert_ne by (intros ->; done).
    destruct (decide (o = n')) as [->|Hne]; [by rewrite lookup_delete_eq|].
    rewrite lookup_delete_ne by done. apply Hout. by right. }
  { intros n' Hn'. apply Hname. by right. }
  split.
  - intros o' n' [[= -> ->]|Hp]%elem_of_cons.
    + rewrite !IH2 by done. unfold fs1. rewrite lookup_insert_eq.
      rewrite lookup_insert_ne by done. by rewrite lookup_delete_eq.
    + destruct (IH1 o' n' Hp) as [H1 H2]. split; [|done].
      rewrite H1. apply Hother.
      * intros ->. apply Ho1. apply list_elem_of_fmap. by exists (o, n').
      * intros ->. apply Hn_old. apply list_elem_of_fmap. by exists (n, n').
  - intros g [Hgo Hg1]%not_elem_of_cons [Hgn Hg2]%not_elem_of_cons.
    rewrite IH2 by done. by apply Hother.
Qed.

Lemma imap_renamed_fst shortname first (l : list string) :
  (imap (renamed_to shortname first) l).*1 = l.
Proof.
  revert first. induction l as [|f l IH]; intros first; [done|].
  rewrite imap_cons, renamed_to_succ, fmap_cons. by rewrite IH.
Qed.

Lemma renamed_pair shortname first (l : list string) o nw :
  (o, nw) ∈ imap (renamed_to shortname first) l ↔
  ∃ k, l !! k = Some o
       ∧ nw = new_name_for shortname (first + N.of_nat k) o.
Proof.
  rewrite elem_of_lookup_imap. unfold renamed_to, new_name_for. split.
  - intros (k & f & [= -> ->] & Hk). by exists k.
  - intros (k & Hk & ->). by exists k, o.
Qed.

Lemma foldr_max_ge (x : N) (l : list N) : x ∈ l → x ≤ foldr N.max 0 l.
Proof.
  induction l as [|y l IH]; [by intros ?%elem_of_nil|].
  intros [->|H]%elem_of_cons; simpl; [lia|]. specialize (IH H). lia.
Qed.

Lemma new_name_serial shortname (n : N) f :
  no_dot shortname → listed f → Py.splitext_ext f ≠ "" →
  serial (new_name_for shortname n f) = Some n.
Proof.
  intros Hs Hl He.
  destruct (listed_splitext f Hl He) as (x & Hx & _).
  destruct (str_int_digits n) as [Hne Hd].
  unfold new_name_for, serial, Re.re_search. rewrite Hx, <-sapp_assoc.
  rewrite (search_after_no_dot _ ("image_" +:+ shortname)) by done.
  simpl. by rewrite int_str_int.
Qed.

(** A name the renamer builds above the highest serial of the valid
    images is the name of no file of the folder. *)
Lemma new_name_fresh fs listing shortname k f :
  no_dot shortname →
  (∀ g, g ∈ listing ↔ is_Some (fs !! g)) →
  listed f → Py.splitext_ext f ≠ "" →
  fs !! new_name_for shortname
          (highest_serial (validate_images listing shortname).1.1 + 1
           + N.of_nat k) f
  = None.
Proof.
  intros Hs Hdom Hl He.
  set (first := highest_serial _ + 1).
  destruct (fs !! _) as [i|] eqn:Hi; [exfalso|done].
  destruct (new_name_canonical shortname (first + N.of_nat k) f Hl He)
    as [Hc Hnl].
  assert (new_name_for shortname (first + N.of_nat k) f
            ∈ (validate_images listing shortname).1.1) as Hvalid.
  { rewrite validate_images_eq. cbn [fst]. apply list_elem_of_filter.
    split; [by apply listed_matched_canonical|].
    apply list_images_elem. split; [done|]. apply Hdom. by rewrite Hi. }
  pose proof (new_name_serial shortname (first + N.of_nat k) f Hs Hl He)
    as Hser.
  assert (first + N.of_nat k
          ≤ highest_serial (validate_images listing shortname).1.1) as Hle.
  { rewrite highest_serial_eq. apply foldr_max_ge.
    apply list_elem_of_omap. eauto. }
  unfold first in Hle. lia.
Qed.

End rename_safety.

Section rename_scan.

Implicit Types (s t f g : string) (fs : gmap string inode).

Lemma renamed_snd_lookup shortname first (l : list string) (i : nat) x :
  (imap (renamed_to shortname first) l).*2 !! i = Some x →
  ∃ f, l !! i = Some f
       ∧ x = new_name_for shortname (first + N.of_nat i) f.
Proof.
  rewrite list_lookup_fmap, list_lookup_imap.
  destruct (l !! i) as [f|]; [|done]. intros [= <-]. by exists f.
Qed.

(** X18: renaming the invalid images of a scan loses no file.  When the
    short name holds no dot, every invalid image has an extension and
    every new name is the name of an entry (no separator or NUL in it,
    not too long), the renamer returns; every new name was the name of
    no file and is canonical, the new names are distinct, each holds
    the content of the file it replaces, every other file is
    untouched, and the next scan of the folder finds no invalid
    image. *)
Theorem rename_loses_no_file fs (listing : list string) (shortname : string) :
  no_dot shortname → NoDup listing →
  (∀ g, g ∈ listing ↔ is_Some (fs !! g)) →
  (∀ f, f ∈ (validate_images listing shortname).1.2 →
        Py.splitext_ext f ≠ "") →
  (∀ k f, (validate_images listing shortname).1.2 !! k = Some f →
     entry_name
       (new_name_for shortname
          (highest_serial (validate_images listing shortname).1.1 + 1
           + N.of_nat k) f) = true) →
  let valid := (validate_images listing shortname).1.1 in
  let invalid := (validate_images listing shortname).1.2 in
  ∃ fs' renamed,
    rename_invalids_to_valid fs shortname valid invalid
    = (fs', Returned renamed)
    ∧ renamed.*1 = invalid
    ∧ NoDup renamed.*2
    ∧ (∀ old new, (old, new) ∈ renamed →
         fs !! new = None ∧ fs' !! new = fs !! old ∧ fs' !! old = None
         ∧ canonical shortname new)
    ∧ (∀ g, g ∉ invalid → g ∉ renamed.*2 → fs' !! g = fs !! g)
    ∧ (∀ listing', (∀ g, g ∈ listing' ↔ is_Some (fs' !! g)) →
         (validate_images listing' shortname).1.2 = []).
Proof.
  intros Hs Hnd Hdom Hext Hnames valid invalid.
  assert (∀ f, f ∈ invalid ↔
            ¬ matched shortname f ∧ listed f ∧ f ∈ listing) as Hinv.
  { intros f. unfold invalid. rewrite validate_images_eq. cbn [fst snd].
    by rewrite list_elem_of_filter, list_images_elem. }
  assert (∀ f, f ∈ valid ↔
            matched shortname f ∧ listed f ∧ f ∈ listing) as Hval.
  { intros f. unfold valid. rewrite validate_images_eq. cbn [fst].
    by rewrite list_elem_of_filter, list_images_elem. }
  assert (NoDup invalid) as Hndi.
  { unfold invalid. rewrite validate_images_eq. cbn [fst snd].
    apply NoDup_filter. rewrite list_images_perm. by apply NoDup_filter. }
  assert (∀ f, f ∈ invalid → is_Some (fs !! f)) as Hpresent.
  { intros f (_ & _ & Hf)%Hinv. by apply Hdom. }
  set (first := highest_serial valid + 1).
  set (pairs := imap (renamed_to shortname first) invalid).
  assert (rename_invalids_to_valid fs shortname valid invalid
          = (foldl apply_rename fs pairs, Returned pairs)) as Hrun.
  { unfold rename_invalids_to_valid. fold first.
    destruct (rename_loop_returns shortname invalid first [] fs Hndi Hpresent
                Hnames) as (fs' & l & Hloop).
    rewrite Hloop. by apply rename_loop_returned in Hloop as [-> ->]. }
  assert (∀ o nw, (o, nw) ∈ pairs →
            o ∈ invalid ∧ listed o ∧ Py.splitext_ext o ≠ ""
            ∧ fs !! nw = None ∧ canonical shortname nw ∧ listed nw
            ∧ entry_name nw = true)
    as Hpair.
  { intros o nw (k & Hk & ->)%renamed_pair.
    pose proof (Hnames k o Hk) as Hentry.
    assert (o ∈ invalid) as Ho by (apply list_elem_of_lookup; eauto).
    pose proof Ho as (_ & Hl & _)%Hinv.
    pose proof (Hext o Ho) as He.
    destruct (new_name_canonical shortname (first + N.of_nat k) o Hl He).
    split_and!; try done.
    by apply (new_name_fresh fs listing shortname k o). }
  assert (NoDup pairs.*2) as Hndn.
  { apply NoDup_alt. intros i j x Hi Hj.
    apply renamed_snd_lookup in Hi as (f1 & Hf1 & ->).
    apply renamed_snd_lookup in Hj as (f2 & Hf2 & Heq).
    assert (f1 ∈ invalid) as H1 by (apply list_elem_of_lookup; eauto).
    assert (f2 ∈ invalid) as H2 by (apply list_elem_of_lookup; eauto).
    pose proof H1 as (_ & Hl1 & _)%Hinv. pose proof H2 as (_ & Hl2 & _)%Hinv.
    pose proof (new_name_serial shortname (first + N.of_nat i) f1 Hs Hl1
                  (Hext f1 H1)) as S1.
    pose proof (new_name_serial shortname (first + N.of_nat j) f2 Hs Hl2
                  (Hext f2 H2)) as S2.
    rewrite Heq, S2 in S1. injection S1. lia. }
  assert (pairs.*1 = invalid) as Hfst by apply imap_renamed_fst.
  assert (∀ nw, nw ∈ pairs.*2 → fs !! nw = None) as Hfresh.
  { intros nw ([o nw'] & -> & Hp)%list_elem_of_fmap.
    by apply Hpair in Hp as (_ & _ & _ & H & _). }
  assert (NoDup pairs.*1) as Hndo by (by rewrite Hfst).
  assert (∀ o, o ∈ pairs.*1 → is_Some (fs !! o)) as Hpres'
    by (by rewrite Hfst).
  assert (∀ nw, nw ∈ pairs.*2 → entry_name nw = true) as Hentries.
  { intros nw ([o nw'] & -> & Hp)%list_elem_of_fmap.
    by apply Hpair in Hp as (_ & _ & _ & _ & _ & _ & H). }
  destruct (rename_batch pairs fs Hndo Hndn Hpres' Hfresh Hentries)
    as [Hmoved Hkept].
  exists (foldl apply_rename fs pairs), pairs.
  split_and!; [done..| | |].
  - intros o nw Hp. destruct (Hmoved o nw Hp) as [H1 H2].
    apply Hpair in Hp as (_ & _ & _ & Hnone & Hc & _). by split_and!.
  - intros g Hg1 Hg2. apply Hkept; [by rewrite Hfst|done].
  - intros listing' Hdom'. rewrite validate_images_eq. cbn [fst snd].
    apply filter_all_False.
    intros f [Hl Hf]%list_images_elem Hnm. apply Hdom' in Hf.
    destruct (decide (f ∈ pairs.*2)) as [Hnew|Hold].
    + apply list_elem_of_fmap in Hnew as ([o nw] & -> & Hp).
      apply Hpair in Hp as (_ & _ & _ & _ & Hc & _).
      apply Hnm. by apply listed_matched_canonical.
    + destruct (decide (f ∈ invalid)) as [Hi|Hni].
      * rewrite <-Hfst in Hi.
        apply list_elem_of_fmap in Hi as ([o nw] & -> & Hp).
        destruct (Hmoved o nw Hp) as [_ Hgone]. simpl in Hf.
        rewrite Hgone in Hf. by destruct Hf.
      * rewrite Hkept in Hf by (by rewrite ?Hfst).
        apply Hni, Hinv. split_and!; [done..|]. by apply Hdom.
Qed.

Lemma rename_loses_no_file_witness :
  ∃ fs' renamed,
    rename_invalids_to_valid
      {[ "image_a_3.png" := 1%positive; "photo.jpg" := 2%positive;
         "notes.txt" := 3%positive ]} "a"
      (validate_images ["image_a_3.png"; "notes.txt"; "photo.jpg"] "a").1.1
      (validate_images ["image_a_3.png"; "notes.txt"; "photo.jpg"] "a").1.2
    = (fs', Returned renamed)
    ∧ renamed.*1
      = (validate_images ["image_a_3.png"; "notes.txt"; "photo.jpg"] "a").1.2.
Proof.
  destruct (rename_loses_no_file
    {[ "image_a_3.png" := 1%positive; "photo.jpg" := 2%positive;
       "notes.txt" := 3%positive ]}
    ["image_a_3.png"; "notes.txt"; "photo.jpg"] "a")
    as (fs' & renamed & H1 & H2 & _).
  - by vm_compute.
  - repeat (apply NoDup_cons; split;
      [rewrite ?elem_of_cons, elem_of_nil; intros H; by intuition|]).
    apply NoDup_nil_2.
  - intros g. rewrite !elem_of_cons, elem_of_nil. split.
    + intros [->|[->|[->|[]]]]; apply (bool_decide_unpack _); by vm_compute.
    + intros [i Hi].
      rewrite ?lookup_insert_Some, ?lookup_singleton_Some in Hi.
      destruct Hi as [[<- _]|[_ [[<- _]|[_ [<- _]]]]];
        [by left|by right; right; left|by right; left].
  - intros f. vm_compute. intros H.
    apply list_elem_of_singleton in H as ->. by vm_compute.
  - intros [|k] f H; vm_compute in H; [|done].
    injection H as <-. by vm_compute.
  - by exists fs', renamed.
Defined.

End rename_scan.

(** ** Controls of the captioning page *)

Section page_controls.

Implicit Types (fs : gmap string csv_file) (img : string)
  (caps : gmap string (list string)).

Lemma read_csv_to_csv (df : DataFrame) :
  parsed (rows df) → read_csv (to_csv df) = df.
Proof.
  intros Hp. unfold read_csv, to_csv. simpl. rewrite map_map.
  change (map _ (rows df)) with (reload (rows df)).
  rewrite (reload_parsed _ Hp). by destruct df.
Qed.

Lemma save_captions_file_eq fs :
  save_captions_file fs
  = (<[CAPTIONS_FILE :=
         to_csv (match fs !! CAPTIONS_FILE with
                 | Some f => read_csv f
                 | None => mkDataFrame CAPTION_COLS []
                 end)]> (delete (tmp_of CAPTIONS_FILE) fs),
     Returned tt).
Proof.
  unfold save_captions_file, mbind, io_bind.
  rewrite ensure_csv_run. destruct (fs !! CAPTIONS_FILE) as [f|] eqn:Hf.
  - by rewrite save_csv_atomic_eq.
  - replace (entry_name CAPTIONS_FILE) with true by done.
    rewrite save_csv_atomic_eq by done.
    rewrite delete_insert_ne by apply tmp_of_ne.
    by rewrite insert_insert_eq.
Qed.

(** X19: the button Save captions file never raises and changes no row:
    the relation and the captions of every image are as before, the
    file exists afterwards, no other file changes, and pressing the
    button again changes nothing at all. *)
Theorem save_captions_file_keeps_rows fs :
  ∃ fs',
    save_captions_file fs = (fs', Returned tt)
    ∧ relation CAPTIONS_FILE fs' = relation CAPTIONS_FILE fs
    ∧ captions_view fs' = captions_view fs
    ∧ is_Some (fs' !! CAPTIONS_FILE)
    ∧ (∀ p, p ≠ CAPTIONS_FILE → p ≠ tmp_of CAPTIONS_FILE →
            fs' !! p = fs !! p)
    ∧ save_captions_file fs' = (fs', Returned tt).
Proof.
  rewrite save_captions_file_eq.
  set (df := match fs !! CAPTIONS_FILE with
             | Some f => read_csv f
             | None => mkDataFrame CAPTION_COLS []
             end).
  assert (rows df = relation CAPTIONS_FILE fs) as Hrows.
  { unfold df, relation. by destruct (fs !! CAPTIONS_FILE). }
  assert (parsed (rows df)) as Hp by (rewrite Hrows; apply relation_parsed).
  set (fs' := <[CAPTIONS_FILE := to_csv df]>
                (delete (tmp_of CAPTIONS_FILE) fs)).
  assert (fs' !! CAPTIONS_FILE = Some (to_csv df)) as Hf
    by apply lookup_insert_eq.
  assert (fs' !! tmp_of CAPTIONS_FILE = None) as Ht.
  { unfold fs'. rewrite lookup_insert_ne by (intros H; by apply (tmp_of_ne CAPTIONS_FILE)).
    apply lookup_delete_eq. }
  assert (relation CAPTIONS_FILE fs' = relation CAPTIONS_FILE fs) as Hrel.
  { rewrite (relation_saved df CAPTIONS_FILE fs' Hf), Hrows.
    apply reload_parsed, relation_parsed. }
  exists fs'. split_and!; [done|done| |by rewrite Hf| |].
  - unfold captions_view. by rewrite Hrel.
  - intros p H1 H2. unfold fs'. rewrite lookup_insert_ne by done.
    by rewrite lookup_delete_ne.
  - rewrite save_captions_file_eq, Hf, (read_csv_to_csv df Hp).
    by rewrite (delete_id _ _ Ht), (insert_id _ _ _ Hf).
Qed.

Lemma getitem_nonneg {A} (l : list A) (i : Z) :
  (0 ≤ i)%Z → PyList.getitem l i = l !! Z.to_nat i.
Proof.
  intros Hi. unfold PyList.getitem.
  by destruct (Z.leb_spec 0 i); [|lia].
Qed.

Lemma getitem_last {A} (l : list A) :
  l ≠ [] → PyList.getitem l (-1) = last l.
Proof.
  intros Hl. unfold PyList.getitem.
  destruct (Z.leb_spec 0 (-1)); [lia|].
  destruct l as [|x l]; [done|].
  destruct (Z.leb_spec (- Z.of_nat (length (x :: l))) (-1));
    [|simpl in *; lia].
  rewrite last_lookup. f_equal. simpl. lia.
Qed.

Lemma index_elem `{EqDecision A} (l : list A) (x : A) :
  x ∈ l →
  ∃ i, PyList.index l x = Some i ∧ l !! i = Some x
       ∧ ∀ j, (j < i)%nat → l !! j ≠ Some x.
Proof.
  induction l as [|y l IH]; [by intros ?%elem_of_nil|].
  intros Hin. simpl. destruct (decide (y = x)) as [->|Hne].
  - exists 0%nat. split_and!; [done..|]. intros j Hj. lia.
  - apply elem_of_cons in Hin as [->|Hin]; [done|].
    destruct (IH Hin) as (i & -> & Hi & Hfirst). exists (S i).
    split_and!; [done..|]. intros [|j] Hj; simpl; [congruence|].
    apply Hfirst. lia.
Qed.

(** X20: the index of the image shown is always within the filtered
    list, so reading the image name never raises; an index already
    within the list is kept, and the buttons Prev and Next move by one
    inside the list and do nothing at its ends. *)
Theorem shown_index_in_bounds {A} (filtered_images : list A)
    (caption_index : Z) :
  filtered_images ≠ [] →
  let len := length filtered_images in
  let idx := clamp_index caption_index len in
  (0 ≤ idx < Z.of_nat len)%Z
  ∧ is_Some (PyList.getitem filtered_images idx)
  ∧ PyList.getitem filtered_images idx = filtered_images !! Z.to_nat idx
  ∧ ((0 ≤ caption_index < Z.of_nat len)%Z → idx = caption_index)
  ∧ ((caption_index < 0)%Z → idx = 0%Z)
  ∧ ((Z.of_nat len ≤ caption_index)%Z → idx = (Z.of_nat len - 1)%Z)
  ∧ clamp_index (nav_prev idx) len = nav_prev idx
  ∧ clamp_index (nav_next idx len) len = nav_next idx len
  ∧ (nav_prev idx = if decide (idx = 0%Z) then idx else (idx - 1)%Z)
  ∧ (nav_next idx len
     = if decide (idx = (Z.of_nat len - 1)%Z) then idx else (idx + 1)%Z).
Proof.
  intros Hne len idx.
  assert (0 < len)%nat as Hlen.
  { unfold len. destruct filtered_images; [done|simpl; lia]. }
  assert (0 ≤ idx < Z.of_nat len)%Z as Hidx by (unfold idx, clamp_index; lia).
  assert (PyList.getitem filtered_images idx
          = filtered_images !! Z.to_nat idx) as Hget
    by (apply getitem_nonneg; lia).
  split_and!; try done; try lia.
  - rewrite Hget. apply lookup_lt_is_Some. fold len. lia.
  - unfold idx, clamp_index. lia.
  - unfold idx, clamp_index. lia.
  - unfold idx, clamp_index. lia.
  - unfold nav_prev, clamp_index. rewrite Z.gtb_ltb.
    destruct (Z.ltb_spec 0 idx); lia.
  - unfold nav_next, clamp_index.
    destruct (Z.ltb_spec idx (Z.of_nat len - 1)); lia.
  - unfold nav_prev. rewrite Z.gtb_ltb.
    destruct (Z.ltb_spec 0 idx), (decide (idx = 0%Z)); lia.
  - unfold nav_next.
    destruct (Z.ltb_spec idx (Z.of_nat len - 1)),
      (decide (idx = (Z.of_nat len - 1)%Z)); lia.
Qed.

Lemma shown_index_in_bounds_witness :
  is_Some (PyList.getitem ["a.png"; "b.png"] (clamp_index 7 2)).
Proof.
  pose proof (shown_index_in_bounds ["a.png"; "b.png"] 7 ltac:(done))
    as (_ & H & _).
  exact H.
Defined.

Lemma count_selector_default (opts : list Z) (d : Z) :
  d ∈ opts →
  ∃ i, count_selector (Some d) opts = Some (opts, i) ∧ opts !! i = Some d.
Proof.
  intros Hd. destruct (index_elem opts d Hd) as (i & Hi & Hl & _).
  exists i. unfold count_selector. simpl.
  destruct opts as [|x opts]; [by apply elem_of_nil in Hd|].
  cbn [PyList.truthy]. by rewrite Hi.
Qed.

(** X21: the three selectors of the filter panel are always given an
    index into their options, so building them never raises: a stored
    bound that is no longer an option falls back to the first option
    for the minimum and to the last for the maximum, a stored landmark
    that is no longer an option falls back to Any. *)
Theorem selectors_never_raise (valid : list string) caps
    (lms : gmap string string) (cap_min cap_max : Z)
    (landmark_filter : string) :
  let opts := Z.of_nat <$> (build_filters valid caps lms).1 in
  let landmark_options := (build_filters valid caps lms).2 in
  ∃ dmin dmax i j k,
    cap_min_default cap_min opts = Some dmin
    ∧ cap_max_default cap_max opts = Some dmax
    ∧ count_selector (cap_min_default cap_min opts) opts = Some (opts, i)
    ∧ opts !! i = Some dmin
    ∧ count_selector (cap_max_default cap_max opts) opts = Some (opts, j)
    ∧ opts !! j = Some dmax
    ∧ landmark_selector landmark_filter landmark_options
      = Some (landmark_options, k)
    ∧ is_Some (landmark_options !! k)
    ∧ (cap_min ∈ opts → dmin = cap_min)
    ∧ (cap_min ∉ opts → dmin = 0%Z)
    ∧ (cap_max ∈ opts → dmax = cap_max)
    ∧ (cap_max ∉ opts → last opts = Some dmax)
    ∧ (landmark_filter ∈ landmark_options →
       landmark_options !! k = Some landmark_filter)
    ∧ (landmark_filter ∉ landmark_options →
       landmark_options !! k = Some "Any").
Proof.
  intros opts landmark_options.
  assert (∃ rest, opts = 0%Z :: rest) as [rest Hopts].
  { unfold opts, build_filters. cbn [fst]. rewrite Nat.add_1_r.
    cbn [seq fmap list_fmap]. eauto. }
  assert (∃ lrest, landmark_options = "Any" :: lrest) as [lrest Hl].
  { unfold landmark_options, build_filters. cbn [snd]. eauto. }
  assert (∃ dmin, cap_min_default cap_min opts = Some dmin
                  ∧ dmin ∈ opts
                  ∧ (cap_min ∈ opts → dmin = cap_min)
                  ∧ (cap_min ∉ opts → dmin = 0%Z))
    as (dmin & Hmin & Hmin_in & Hmin1 & Hmin2).
  { unfold cap_min_default. destruct (decide (cap_min ∈ opts)) as [Hin|Hout].
    - exists cap_min. by split_and!.
    - exists 0%Z. split_and!; [|rewrite Hopts; left|done..].
      by rewrite Hopts. }
  assert (∃ dmax, cap_max_default cap_max opts = Some dmax
                  ∧ dmax ∈ opts
                  ∧ (cap_max ∈ opts → dmax = cap_max)
                  ∧ (cap_max ∉ opts → last opts = Some dmax))
    as (dmax & Hmax & Hmax_in & Hmax1 & Hmax2).
  { unfold cap_max_default. destruct (decide (cap_max ∈ opts)) as [Hin|Hout].
    - exists cap_max. by split_and!.
    - assert (opts ≠ []) as Hne by (by rewrite Hopts).
      destruct (last opts) as [x|] eqn:Hlast.
      + exists x. rewrite getitem_last, Hlast by done.
        split_and!; [by rewrite Hopts| |done..].
        apply list_elem_of_lookup. rewrite last_lookup in Hlast. eauto.
      + apply last_None in Hlast. done. }
  destruct (count_selector_default opts dmin Hmin_in) as (i & Hi & Hi').
  destruct (count_selector_default opts dmax Hmax_in) as (j & Hj & Hj').
  assert (∃ k, landmark_selector landmark_filter landmark_options
               = Some (landmark_options, k)
               ∧ (landmark_filter ∈ landmark_options →
                  landmark_options !! k = Some landmark_filter)
               ∧ (landmark_filter ∉ landmark_options →
                  landmark_options !! k = Some "Any"))
    as (k & Hk & Hk1 & Hk2).
  { unfold landmark_selector.
    destruct (decide (landmark_filter ∈ landmark_options)) as [Hin|Hout].
    - destruct (index_elem _ _ Hin) as (k & -> & Hk & _).
      exists k. by split_and!.
    - exists 0%nat. split_and!; [done..|]. by rewrite Hl. }
  exists dmin, dmax, i, j, k. rewrite Hmin, Hmax.
  split_and!; try done.
  destruct (decide (landmark_filter ∈ landmark_options)) as [Hin|Hout].
  - rewrite Hk1; eauto.
  - rewrite Hk2; eauto.
Qed.

Lemma selectors_never_raise_witness :
  ∃ j, count_selector
         (cap_max_default 10
            (Z.of_nat <$> (build_filters ["a.png"] ∅ ∅).1))
         (Z.of_nat <$> (build_filters ["a.png"] ∅ ∅).1)
       = Some (Z.of_nat <$> (build_filters ["a.png"] ∅ ∅).1, j).
Proof.
  destruct (selectors_never_raise ["a.png"] ∅ ∅ 0 10 "Any")
    as (dmin & dmax & i & j & k & _ & _ & _ & _ & H & _).
  by exists j.
Defined.

(** X22: whatever is selected and however often Apply Filter is
    pressed, the stored range is never inverted; as long as no
    application was accepted the filters are those of a new session,
    and afterwards they are the values of an accepted application. *)
Theorem filter_range_never_inverted (clicks : list (Z * Z * string)) :
  let final :=
    foldl (λ st c, (apply_filter_click c.1.1 c.1.2 c.2 st).1)
      init_filters clicks in
  (st_cap_min final ≤ st_cap_max final)%Z
  ∧ (st_filter_applied final = false → final = init_filters)
  ∧ (st_filter_applied final = true →
     ∃ c, c ∈ clicks ∧ (c.1.1 ≤ c.1.2)%Z
          ∧ final = mkFilterState c.1.1 c.1.2 c.2 true)
  ∧ (∀ c st, (c.1.1 > c.1.2)%Z →
       (apply_filter_click c.1.1 c.1.2 c.2 st).1 = st).
Proof.
  intros final. unfold final. clear final.
  split_and!.
  1-3: induction clicks as [|[[mn mx] lm] clicks IH] using rev_ind;
    [done|].
  - rewrite foldl_app. cbn [foldl fst snd]. unfold apply_filter_click.
    rewrite Z.gtb_ltb. destruct (Z.ltb_spec mx mn); [done|simpl; lia].
  - rewrite foldl_app. cbn [foldl fst snd]. unfold apply_filter_click.
    rewrite Z.gtb_ltb. destruct (Z.ltb_spec mx mn); [done|].
    by simpl.
  - rewrite foldl_app. cbn [foldl fst snd]. unfold apply_filter_click.
    rewrite Z.gtb_ltb. destruct (Z.ltb_spec mx mn).
    + intros (c & Hc & Hle & Heq)%IH. exists c. split_and!; [|done..].
      apply elem_of_app. by left.
    + intros _. exists (mn, mx, lm). split_and!; [|done..].
      apply elem_of_app. right. left.
  - intros [[mn mx] lm] st Hgt. unfold apply_filter_click. simpl in *.
    rewrite Z.gtb_ltb. destruct (Z.ltb_spec mx mn); [done|lia].
Qed.

Lemma filter_range_never_inverted_witness :
  (foldl (λ st c, (apply_filter_click c.1.1 c.1.2 c.2 st).1)
     init_filters [(3, 1, "Any"); (1, 2, "Paris")]%Z)
  = mkFilterState 1 2 "Paris" true.
Proof.
  pose proof (filter_range_never_inverted [(3, 1, "Any"); (1, 2, "Paris")]%Z)
    as (_ & _ & H & _).
  destruct H as (c & Hc & _ & Heq); [by vm_compute|].
  by vm_compute.
Defined.

Lemma caption_count_view fs img :
  caption_count (captions_view fs) img
  = length (filter (λ r, str_cell r.1 = img) (relation CAPTIONS_FILE fs)).
Proof.
  unfold caption_count. by rewrite captions_view_lookup, length_fmap.
Qed.

Lemma length_filter_pos {A} (P : A → Prop) `{!∀ x, Decision (P x)}
    (l : list A) :
  (0 < length (filter P l))%nat ↔ ∃ x, x ∈ l ∧ P x.
Proof.
  split.
  - destruct (filter P l) as [|x l'] eqn:E; [simpl; lia|]. intros _.
    assert (x ∈ filter P l) as [HP Hx]%list_elem_of_filter
      by (rewrite E; left).
    eauto.
  - intros (x & Hx & HP).
    assert (x ∈ filter P l) as Hin by (by apply list_elem_of_filter).
    destruct (filter P l); [by apply elem_of_nil in Hin|simpl; lia].
Qed.

(** X23: the two summary lists split the filtered images: every image
    is in exactly one of them, in the order of the filtered list, and
    the two counts add up to the total.  An image is listed with
    captions exactly when the captions file holds a row for it, a row
    with a blank caption included. *)
Theorem summary_lists_partition (filtered_images : list string) fs :
  let caps := captions_view fs in
  let with_caps := imgs_with_caps filtered_images caps in
  let without_caps := imgs_without_caps filtered_images caps in
  with_caps ++ without_caps ≡ₚ filtered_images
  ∧ (length with_caps + length without_caps = length filtered_images)%nat
  ∧ with_caps `sublist_of` filtered_images
  ∧ without_caps `sublist_of` filtered_images
  ∧ (∀ img, img ∈ with_caps → img ∉ without_caps)
  ∧ (∀ img, img ∈ with_caps ↔
       img ∈ filtered_images
       ∧ ∃ r, r ∈ relation CAPTIONS_FILE fs ∧ str_cell r.1 = img)
  ∧ (∀ img, img ∈ without_caps ↔
       img ∈ filtered_images
       ∧ ∀ r, r ∈ relation CAPTIONS_FILE fs → str_cell r.1 ≠ img).
Proof.
  intros caps with_caps without_caps.
  assert (without_caps
          = filter (λ i, ¬ (0 < caption_count caps i)%nat) filtered_images)
    as Hwo.
  { unfold without_caps, imgs_without_caps. apply list_filter_iff.
    intros i. lia. }
  assert (with_caps ++ without_caps ≡ₚ filtered_images) as Hperm.
  { rewrite Hwo. apply filter_app_complement. }
  split_and!.
  - done.
  - by rewrite <-length_app, Hperm.
  - apply sublist_filter.
  - apply sublist_filter.
  - intros img [Hpos _]%list_elem_of_filter [Hz _]%list_elem_of_filter. lia.
  - intros img. unfold with_caps, imgs_with_caps, caps.
    rewrite list_elem_of_filter, caption_count_view, length_filter_pos.
    tauto.
  - intros img. unfold without_caps, imgs_without_caps, caps.
    rewrite list_elem_of_filter, caption_count_view. split.
    + intros [Hz Hin]. split; [done|]. intros r Hr Heq.
      assert (0 < length (filter (λ r, str_cell r.1 = img)
                           (relation CAPTIONS_FILE fs)))%nat; [|lia].
      apply length_filter_pos. eauto.
    + intros [Hin Hnone]. split; [|done].
      destruct (filter _ (relation CAPTIONS_FILE fs)) as [|r l] eqn:E;
        [done|].
      assert (r ∈ filter (λ r, str_cell r.1 = img)
                    (relation CAPTIONS_FILE fs)) as Hr by (rewrite E; left).
      apply list_elem_of_filter in Hr as [Heq Hr]. by destruct (Hnone r Hr).
Qed.

End page_controls.

(** ** Concrete instances *)

Section instances.


Lemma load_twice_witness :
  (ensure_csv CAPTIONS_FILE CAPTION_COLS
     {[ CAPTIONS_FILE := mkCsv CAPTION_COLS [("a.png", "x")] ]}).1
  = {[ CAPTIONS_FILE := mkCsv CAPTION_COLS [("a.png", "x")] ]}.
Proof.
  pose proof (load_twice CAPTIONS_FILE CAPTION_COLS CAPTION_COLS
    {[ CAPTIONS_FILE := mkCsv CAPTION_COLS [("a.png", "x")] ]})
    as (_ & H & _).
  apply H. rewrite lookup_singleton_eq. eauto.
Defined.

Lemma save_captions_file_keeps_rows_witness :
  ∃ fs',
    save_captions_file
      {[ CAPTIONS_FILE := mkCsv CAPTION_COLS [("a.png", "NA")];
         LANDMARKS_FILE := mkCsv LANDMARK_COLS [] ]}
    = (fs', Returned tt)
    ∧ fs' !! LANDMARKS_FILE = Some (mkCsv LANDMARK_COLS []).
Proof.
  destruct (save_captions_file_keeps_rows
    {[ CAPTIONS_FILE := mkCsv CAPTION_COLS [("a.png", "NA")];
       LANDMARKS_FILE := mkCsv LANDMARK_COLS [] ]})
    as (fs' & Hrun & _ & _ & _ & Hother & _).
  exists fs'. split; [done|].
  rewrite Hother; by vm_compute.
Defined.

Lemma summary_lists_partition_witness :
  "a.png" ∈ imgs_with_caps ["a.png"; "b.png"]
    (captions_view {[ CAPTIONS_FILE := mkCsv CAPTION_COLS [("a.png", "")] ]}).
Proof.
  pose proof (summary_lists_partition ["a.png"; "b.png"]
    {[ CAPTIONS_FILE := mkCsv CAPTION_COLS [("a.png", "")] ]})
    as (_ & _ & _ & _ & _ & H & _).
  apply H. split; [left|].
  exists (Some "a.png", None). split; [|done].
  vm_compute. left.
Defined.

End instances.
